(** * Text summarization notebook: extractive summary, preprocessing, overlap scores

    A shallow embedding of the Python cells of
    [Task 2 Text Summarization.ipynb]:

    - [preprocess_df]      (pandas cleaning of the data frames),
    - [extractive_summary] (frequency based sentence selection over a
      spaCy document),
    - the overlap scores printed by the ROUGE cell.

    Python integers are unbounded; counts and scores are never negative and
    are kept in [nat], the slice bound [num_sentences] may be negative and
    is kept in [Z].  A call either raises or returns: [res A]. *)

From stdpp Require Import gmap strings list sorting.
From Stdlib Require Import QArith.

Local Open Scope nat_scope.

(** ** Python values the cells pass around *)

Inductive exn := TypeError | ValueError.

Inductive res (A : Type) : Type :=
  | Raise (e : exn)
  | Ok (a : A).
Arguments Raise {A} e.
Arguments Ok {A} a.

Global Instance res_bind : MBind res := λ A B f r,
  match r with
  | Raise e => Raise e
  | Ok a => f a
  end.

(** The argument [num_sentences]: an [int], [None], or an object without
    [__index__] (a [float], a [str], ...). *)
Inductive PyObj :=
  | PyInt (z : Z)
  | PyNone
  | PyNonIndex.

(** ** spaCy objects, as far as the cell reads them

    A [Token] is read through [text], [is_stop] and [is_punct]; a sentence is
    a [Span] of the document, read through its tokens, through [str] (its
    text) and through the comparisons of [Span.__richcmp__], which order
    spans by [(start_char, end_char, label, kb_id, id, doc)]: the last four
    are the same for all sentences of one document.  [doc.sents] cuts the
    document into consecutive sentences, so iterating the document visits the
    tokens of the sentences in order. *)

Record Token := { text : string; is_stop : bool; is_punct : bool }.

Record Span := {
  start_char : nat;
  end_char : nat;
  span_tokens : list Token;
  span_text : string
}.

Global Instance Token_eq_dec : EqDecision Token.
Proof. solve_decision. Defined.

Global Instance Span_eq_dec : EqDecision Span.
Proof. solve_decision. Defined.

Abbreviation Doc := (list Span).

Definition doc_tokens (doc : Doc) : list Token :=
  concat (span_tokens <$> doc).

Definition span_eqb (s t : Span) : bool :=
  (start_char s =? start_char t) && (end_char s =? end_char t).

Definition span_ltb (s t : Span) : bool :=
  if negb (start_char s =? start_char t) then start_char s <? start_char t
  else end_char s <? end_char t.

Definition by_start (s t : Span) : Prop := start_char s < start_char t.

(** Sentences of a segmented document start at strictly increasing
    character offsets. *)
Fixpoint increasing_from (lo : option nat) (doc : Doc) : bool :=
  match doc with
  | [] => true
  | s :: doc' =>
      match lo with
      | None => true
      | Some c => c <? start_char s
      end && increasing_from (Some (start_char s)) doc'
  end.

Definition wf_doc (doc : Doc) : bool := increasing_from None doc.

(** ** Builtins *)

(** [str.lower] and [str.strip] on the ASCII range. *)
Definition lower_ascii (c : Ascii.ascii) : Ascii.ascii :=
  let n := Ascii.nat_of_ascii c in
  if (65 <=? n) && (n <=? 90) then Ascii.ascii_of_nat (n + 32) else c.

Fixpoint ascii_lower (s : string) : string :=
  match s with
  | EmptyString => EmptyString
  | String c s' => String (lower_ascii c) (ascii_lower s')
  end.

Definition is_space (c : Ascii.ascii) : bool :=
  let n := Ascii.nat_of_ascii c in
  ((9 <=? n) && (n <=? 13)) || ((28 <=? n) && (n <=? 32)).

Fixpoint lstrip (s : string) : string :=
  match s with
  | EmptyString => EmptyString
  | String c s' => if is_space c then lstrip s' else s
  end.

Fixpoint rstrip (s : string) : string :=
  match s with
  | EmptyString => EmptyString
  | String c s' =>
      match rstrip s' with
      | EmptyString => if is_space c then EmptyString else String c EmptyString
      | r => String c r
      end
  end.

Definition ascii_strip (s : string) : string := rstrip (lstrip s).

(** [sep.join(l)] *)
Fixpoint join (sep : string) (l : list string) : string :=
  match l with
  | [] => EmptyString
  | [s] => s
  | s :: l' => s +:+ sep +:+ join sep l'
  end.

(** [collections.Counter(iterable)]: every element adds one to its entry,
    a missing entry counting as 0. *)
Definition Counter `{Countable K} (l : list K) : gmap K nat :=
  foldl (λ m x, <[x := default 0 (m !! x) + 1]> m) ∅ l.

(** [m.get(x, 0)] *)
Definition get0 `{Countable K} (m : gmap K nat) (x : K) : nat :=
  default 0 (m !! x).

(** The number of elements of [l] equal to [x]. *)
Definition occurrences `{EqDecision K} (x : K) (l : list K) : nat :=
  length (filter (λ y, y = x) l).

(** [l[:k]]: [None] keeps the list, a negative bound counts from the end and
    is clipped at 0, a bound past the end is clipped at the length, anything
    without [__index__] raises [TypeError]. *)
Definition slice_to {A} (l : list A) (k : PyObj) : res (list A) :=
  match k with
  | PyNone => Ok l
  | PyInt z =>
      let n := Z.of_nat (length l) in
      let stop := if (z <? 0)%Z then Z.max (z + n) 0 else Z.min z n in
      Ok (take (Z.to_nat stop) l)
  | PyNonIndex => Raise TypeError
  end.

(** [sorted]: a stable sort that compares with [<] only.  Each element in
    turn is inserted into the sorted prefix, to the right of the elements
    that are not greater. *)
Section sorted.
Context {A : Type} (lt : A → A → bool).

Fixpoint insort (x : A) (l : list A) : list A :=
  match l with
  | [] => [x]
  | y :: l' => if lt x y then x :: y :: l' else y :: insort x l'
  end.

Definition sorted (l : list A) : list A :=
  foldl (λ acc x, insort x acc) [] l.

(** [sorted(l, reverse=True)]: the list is reversed, sorted and reversed
    again, which keeps equal elements in their original order. *)
Definition sorted_reverse (l : list A) : list A :=
  reverse (sorted (reverse l)).
End sorted.

(** [sorted(l, key=f)]: the keys are computed first (a key that raises
    aborts the call), then the elements are sorted by comparing keys. *)
Definition key_ltb {A} (a b : nat * A) : bool := a.1 <? b.1.

Fixpoint keys_of {A} (key : A → res nat) (l : list A) : res (list (nat * A)) :=
  match l with
  | [] => Ok []
  | x :: l' =>
      k ← key x;
      kl ← keys_of key l';
      Ok ((k, x) :: kl)
  end.

Definition sorted_key {A} (key : A → res nat) (l : list A) : res (list A) :=
  kl ← keys_of key l;
  Ok (snd <$> sorted key_ltb kl).

(** [l.index(x)]: the first position whose element is [== x], or
    [ValueError]. *)
Fixpoint index (l : list Span) (x : Span) : res nat :=
  match l with
  | [] => Raise ValueError
  | y :: l' =>
      if span_eqb y x then Ok 0
      else (i ← index l' x; Ok (S i))
  end.

(** [a < b] on the tuples [(score, sent)]: the first components that differ
    decide. *)
Definition tuple_ltb (a b : nat * Span) : bool :=
  if negb (a.1 =? b.1) then a.1 <? b.1
  else if negb (span_eqb a.2 b.2) then span_ltb a.2 b.2
  else false.

(** ** [extractive_summary] *)

Section extractive.
(** [str.lower] *)
Variable lower : string → string.

Definition informative (t : Token) : bool :=
  negb (is_stop t) && negb (is_punct t).

(** [[token.text.lower() for token in ts
      if not token.is_stop and not token.is_punct]] *)
Definition words_of (ts : list Token) : list string :=
  (λ t, lower (text t)) <$> filter (λ t, informative t) ts.

(** The number of informative tokens of [ts] whose case-folded text is
    [w]. *)
Definition informative_count (w : string) (ts : list Token) : nat :=
  length (filter (λ t, informative t ∧ lower (text t) = w) ts).

(** [sum(word_freq.get(w, 0) for w in sent_words)] *)
Definition score (word_freq : gmap string nat) (sent : Span) : nat :=
  sum_list_with (get0 word_freq) (words_of (span_tokens sent)).

(** The loop [for sent in sentences: ... sent_scores.append((score, sent))] *)
Definition score_loop (word_freq : gmap string nat) (sentences : list Span)
    : list (nat * Span) :=
  foldl (λ sent_scores sent, sent_scores ++ [(score word_freq sent, sent)])
        [] sentences.

Definition word_freq_of (doc : Doc) : gmap string nat :=
  Counter (words_of (doc_tokens doc)).

Definition sent_scores_of (doc : Doc) : list (nat * Span) :=
  score_loop (word_freq_of doc) doc.

(** [sorted(sent_scores, reverse=True)] *)
Definition ranked (doc : Doc) : list (nat * Span) :=
  sorted_reverse tuple_ltb (sent_scores_of doc).

(** The two selection lines: the slice of the ranking, put back in
    document order. *)
Definition select_top (doc : Doc) (num_sentences : PyObj)
    : res (list (nat * Span)) :=
  top_sents ← slice_to (ranked doc) num_sentences;
  sorted_key (λ x, index doc x.2) top_sents.

(** [doc] is [nlp(article)], the segmenter's result. *)
Definition extractive_summary (doc : Doc) (num_sentences : PyObj)
    : res string :=
  top_sents ← select_top doc num_sentences;
  Ok (join " " ((λ s, span_text s.2) <$> top_sents)).
End extractive.

(** ** An invocation with [sorted] known by its contract only

    [sorted] promises a permutation of its argument in which no element is
    smaller than the one before it (greater, under [reverse=True]); how equal
    elements fall is the routine's business.  [summary_run] relates a
    document and a bound to every result [extractive_summary] could return
    under that promise alone. *)

Definition sorts_desc {A} (lt : A → A → bool) (l out : list A) : Prop :=
  out ≡ₚ l ∧ Sorted (λ a b, lt a b = false) out.

Definition sorts_asc {A} (lt : A → A → bool) (l out : list A) : Prop :=
  out ≡ₚ l ∧ Sorted (λ a b, lt b a = false) out.

Section runs.
Variable lower : string → string.

Definition summary_run (doc : Doc) (num_sentences : PyObj)
    (out : res string) : Prop :=
  ∃ ranking, sorts_desc tuple_ltb (sent_scores_of lower doc) ranking ∧
    match slice_to ranking num_sentences with
    | Raise e => out = Raise e
    | Ok top_sents =>
        match keys_of (λ x, index doc x.2) top_sents with
        | Raise e => out = Raise e
        | Ok keyed =>
            ∃ ordered, sorts_asc key_ltb keyed ordered ∧
              out = Ok (join " " ((λ s, span_text s.2) <$> (snd <$> ordered)))
        end
    end.
End runs.

(** ** [preprocess_df]

    A data frame is its rows in order, each under its index label; a cell of
    the two text columns is a string or null.  A frame read from CSV is
    labelled by position. *)

Record Row := {
  id : string;
  article : option string;
  highlights : option string
}.

Global Instance Row_eq_dec : EqDecision Row.
Proof. solve_decision. Defined.

Abbreviation DataFrame := (list (nat * Row)).

Definition range_index (rows : list Row) : DataFrame :=
  imap (λ i r, (i, r)) rows.

Section preprocess.
(** [str.strip] *)
Variable strip : string → string.

(** [df.dropna(subset=['article', 'highlights'])] *)
Definition notna (r : Row) : bool :=
  match article r, highlights r with
  | Some _, Some _ => true
  | _, _ => false
  end.

Definition dropna (df : DataFrame) : DataFrame :=
  filter (λ x, notna x.2) df.

(** [df['article'] = df['article'].str.strip()], then the same for
    [highlights]; a null cell stays null. *)
Definition strip_article (r : Row) : Row :=
  {| id := id r; article := strip <$> article r; highlights := highlights r |}.

Definition strip_highlights (r : Row) : Row :=
  {| id := id r; article := article r; highlights := strip <$> highlights r |}.

Definition strip_columns (df : DataFrame) : DataFrame :=
  (λ x, (x.1, strip_highlights x.2)) <$> ((λ x, (x.1, strip_article x.2)) <$> df).

Definition strip_row (r : Row) : Row := strip_highlights (strip_article r).

(** [df[(df['article'] != '') & (df['highlights'] != '')]]; a null cell
    differs from [''] *)
Definition ne_empty (cell : option string) : bool :=
  match cell with
  | Some s => negb (String.eqb s EmptyString)
  | None => true
  end.

Definition nonempty (r : Row) : bool :=
  ne_empty (article r) && ne_empty (highlights r).

Definition drop_empty (df : DataFrame) : DataFrame :=
  filter (λ x, nonempty x.2) df.

(** [df.drop_duplicates(subset=['article', 'highlights'])]: a row is
    dropped when its pair was seen in a row before it. *)
Definition subset_key (r : Row) : option string * option string :=
  (article r, highlights r).

Fixpoint drop_duplicates_from (seen : gset (option string * option string))
    (df : DataFrame) : DataFrame :=
  match df with
  | [] => []
  | x :: df' =>
      if decide (subset_key x.2 ∈ seen) then drop_duplicates_from seen df'
      else x :: drop_duplicates_from ({[subset_key x.2]} ∪ seen) df'
  end.

Definition drop_duplicates (df : DataFrame) : DataFrame :=
  drop_duplicates_from ∅ df.

(** Both text cells hold a string that is not empty once stripped. *)
Definition usable (r : Row) : Prop :=
  (∃ a, article r = Some a ∧ strip a ≠ EmptyString) ∧
  (∃ h, highlights r = Some h ∧ strip h ≠ EmptyString).

Definition usableb (r : Row) : bool := notna r && nonempty (strip_row r).

(** The pair of stripped text cells, which duplicates are judged by. *)
Definition stripped_pair (r : Row) : option string * option string :=
  (strip <$> article r, strip <$> highlights r).

(** [df.reset_index(drop=True)] *)
Definition reset_index (df : DataFrame) : DataFrame :=
  range_index (snd <$> df).

(** The frame before the final relabelling. *)
Definition cleaned (df : DataFrame) : DataFrame :=
  drop_duplicates (drop_empty (strip_columns (dropna df))).

Definition preprocess_df (df : DataFrame) : DataFrame :=
  reset_index (cleaned df).
End preprocess.

(** ** Overlap Evaluator *)

Inductive Variant := unigram | bigram | lcs.

Record OverlapScore := { precision : Q; recall : Q; fmeasure : Q }.

(** Modelled from the spec: the scorer behind [rouge_scorer.RougeScorer] is
    an imported package, the notebook only calls it.  Token sequences are the
    inputs (case folding and stemming are done before), scores are exact
    rationals.  [ngrams n ts] lists the contiguous runs of [n] tokens. *)
Fixpoint ngrams (n : nat) (ts : list string) : list (list string) :=
  match ts with
  | [] => []
  | _ :: ts' =>
      if decide (n ≤ length ts) then take n ts :: ngrams n ts' else []
  end.

(** Modelled from the spec: [overlapCount], the sum over the distinct n-grams
    of the two multisets of the smaller of the two counts. *)
Definition overlapCount (reference candidate : list (list string)) : nat :=
  let cr := Counter reference in
  let cc := Counter candidate in
  sum_list_with (λ g, get0 cr g `min` get0 cc g) (elements (dom cr ∪ dom cc)).

(** Modelled from the spec: a quotient of counts that is 0 when the
    denominator is 0. *)
Definition ratio (a b : nat) : Q :=
  if b =? 0 then 0%Q else (Z.of_nat a # Pos.of_nat b)%Q.

(** Modelled from the spec: [F = 2·P·R/(P+R)], 0 if [P+R = 0]. *)
Definition fscore (p r : Q) : Q :=
  if Qeq_bool (p + r) 0 then 0%Q else (2 * p * r / (p + r))%Q.

(** Modelled from the spec: the length of the longest common subsequence, by
    the recurrence the dynamic-programming table is filled with. *)
Fixpoint lcs_length (xs ys : list string) : nat :=
  match xs with
  | [] => 0
  | x :: xs' =>
      (fix row (ys : list string) : nat :=
         match ys with
         | [] => 0
         | y :: ys' =>
             if decide (x = y) then S (lcs_length xs' ys')
             else lcs_length xs' ys `max` row ys'
         end) ys
  end.

(** Modelled from the spec: precision, recall and F of [matched] units out
    of [n_candidate] candidate and [n_reference] reference units. *)
Definition prf (matched n_reference n_candidate : nat) : OverlapScore :=
  let p := ratio matched n_candidate in
  let r := ratio matched n_reference in
  {| precision := p; recall := r; fmeasure := fscore p r |}.

(** Modelled from the spec: the n-gram variants. *)
Definition ngram_score (n : nat) (reference candidate : list string)
    : OverlapScore :=
  let rg := ngrams n reference in
  let cg := ngrams n candidate in
  prf (overlapCount rg cg) (length rg) (length cg).

(** Modelled from the spec: the LCS variant. *)
Definition lcs_score (reference candidate : list string) : OverlapScore :=
  prf (lcs_length reference candidate) (length reference) (length candidate).

(** Modelled from the spec: [score(reference, candidate)] for one variant. *)
Definition overlap_score (v : Variant) (reference candidate : list string)
    : OverlapScore :=
  match v with
  | unigram => ngram_score 1 reference candidate
  | bigram => ngram_score 2 reference candidate
  | lcs => lcs_score reference candidate
  end.

(** Precision, recall and F are all 1. *)
Definition all_ones (sc : OverlapScore) : Prop :=
  (precision sc == 1 ∧ recall sc == 1 ∧ fmeasure sc == 1)%Q.

(** The fewest tokens for which a variant has a unit to count. *)
Definition min_tokens (v : Variant) : nat :=
  match v with
  | bigram => 2
  | _ => 1
  end.

(** ** The claims as the specification words them *)

Section claims_as_worded.
Variable lower : string → string.

(** Equal scores are ranked by ascending original index. *)
Definition ties_prefer_earlier (doc : Doc) : Prop :=
  ∀ i j a b p q,
    ranked lower doc !! i = Some a → ranked lower doc !! j = Some b →
    i < j → a.1 = b.1 →
    doc !! p = Some a.2 → doc !! q = Some b.2 → p < q.

(** A bound that is not a non-negative integer is rejected. *)
Definition invalid_bound (k : PyObj) : Prop :=
  match k with
  | PyInt z => (z < 0)%Z
  | _ => True
  end.

Definition rejects_invalid_bounds (doc : Doc) : Prop :=
  ∀ k, invalid_bound k → ∃ e, extractive_summary lower doc k = Raise e.
End claims_as_worded.

(** ** A sample document and a sample table

    "The cat sat. The cat ran fast. Dogs bark loudly at night." with the
    stopwords "the" and "at". *)

Definition word (s : string) : Token :=
  {| text := s; is_stop := false; is_punct := false |}.
Definition stopword (s : string) : Token :=
  {| text := s; is_stop := true; is_punct := false |}.
Definition punct (s : string) : Token :=
  {| text := s; is_stop := false; is_punct := true |}.

Definition cat_sat : Span :=
  {| start_char := 0; end_char := 12;
     span_tokens := [stopword "The"; word "cat"; word "sat"; punct "."];
     span_text := "The cat sat." |}.

Definition cat_ran : Span :=
  {| start_char := 13; end_char := 30;
     span_tokens := [stopword "The"; word "cat"; word "ran"; word "fast";
                     punct "."];
     span_text := "The cat ran fast." |}.

Definition dogs_bark : Span :=
  {| start_char := 31; end_char := 57;
     span_tokens := [word "Dogs"; word "bark"; word "loudly"; stopword "at";
                     word "night"; punct "."];
     span_text := "Dogs bark loudly at night." |}.

Definition cat_doc : Doc := [cat_sat; cat_ran; dogs_bark].

Definition only_stopwords : Span :=
  {| start_char := 0; end_char := 7;
     span_tokens := [stopword "It"; stopword "is"; punct "."];
     span_text := "It is." |}.

Definition sample_rows : list Row :=
  [ {| id := "a"; article := Some " x "; highlights := Some "h" |};
    {| id := "b"; article := None; highlights := Some "h" |};
    {| id := "c"; article := Some "x"; highlights := Some "h " |};
    {| id := "d"; article := Some "  "; highlights := Some "h" |};
    {| id := "e"; article := Some "y"; highlights := Some "h" |} ]%string.

(** * Properties *)

(** ** [Counter] counts occurrences *)

Section counter_facts.
Context `{Countable K}.
Implicit Types (l : list K) (m : gmap K nat).

Lemma occurrences_nil (x : K) : occurrences x [] = 0.
Proof. reflexivity. Qed.

Lemma occurrences_cons (x y : K) l :
  occurrences x (y :: l) = (if decide (y = x) then 1 else 0) + occurrences x l.
Proof.
  unfold occurrences. rewrite filter_cons. by destruct (decide (y = x)).
Qed.

Lemma occurrences_app (x : K) l1 l2 :
  occurrences x (l1 ++ l2) = occurrences x l1 + occurrences x l2.
Proof. unfold occurrences. by rewrite filter_app, length_app. Qed.

Lemma occurrences_pos (x : K) l : 0 < occurrences x l ↔ x ∈ l.
Proof.
  induction l as [|y l IH]; [rewrite occurrences_nil; set_solver by lia|].
  rewrite occurrences_cons, elem_of_cons.
  destruct (decide (y = x)) as [->|]; [intuition lia|].
  rewrite <-IH. intuition (congruence || lia).
Qed.

Lemma Counter_step_get0 m (x y : K) :
  get0 (<[y := default 0 (m !! y) + 1]> m) x
  = get0 m x + (if decide (y = x) then 1 else 0).
Proof.
  unfold get0. destruct (decide (y = x)) as [->|Hne].
  - by rewrite lookup_insert_eq.
  - rewrite lookup_insert_ne by done. lia.
Qed.

Lemma Counter_from_get0 l m (x : K) :
  get0 (foldl (λ m x, <[x := default 0 (m !! x) + 1]> m) m l) x
  = get0 m x + occurrences x l.
Proof.
  revert m. induction l as [|y l IH]; intros m; simpl.
  - rewrite occurrences_nil. lia.
  - rewrite IH, Counter_step_get0, occurrences_cons. lia.
Qed.

Lemma Counter_from_dom l m :
  dom (foldl (λ m x, <[x := default 0 (m !! x) + 1]> m) m l)
  = dom m ∪ list_to_set l.
Proof.
  revert m. induction l as [|y l IH]; intros m; simpl.
  - set_solver.
  - rewrite IH, dom_insert_L. set_solver.
Qed.

Lemma Counter_get0 l (x : K) : get0 (Counter l) x = occurrences x l.
Proof. unfold Counter. by rewrite Counter_from_get0. Qed.

Lemma Counter_dom l : dom (Counter l) = list_to_set l.
Proof. unfold Counter. rewrite Counter_from_dom. set_solver. Qed.

Lemma Counter_lookup l (x : K) :
  Counter l !! x
  = if decide (x ∈ l) then Some (occurrences x l) else None.
Proof.
  destruct (decide (x ∈ l)) as [Hin|Hin].
  - assert (x ∈ dom (Counter l)) as Hd by (rewrite Counter_dom; set_solver).
    apply elem_of_dom in Hd as [n Hn]. rewrite Hn. f_equal.
    rewrite <-Counter_get0. unfold get0. by rewrite Hn.
  - apply not_elem_of_dom. rewrite Counter_dom. set_solver.
Qed.

(** Summing the occurrences over a duplicate-free list that covers [l]
    counts every element of [l] once. *)
Lemma sum_occurrences_cover l (d : list K) :
  NoDup d → (∀ x, x ∈ l → x ∈ d) →
  sum_list_with (λ x, occurrences x l) d = length l.
Proof.
  intros Hd. induction l as [|y l IH]; intros Hcov.
  - clear Hd Hcov. induction d as [|? d IHd]; [done|]. simpl. by rewrite IHd.
  - assert (y ∈ d) as Hy by (apply Hcov; left).
    simpl. rewrite <-IH by (intros; apply Hcov; by right). clear IH Hcov.
    induction Hd as [|z d Hz Hd IHd]; [by apply elem_of_nil in Hy|].
    simpl. rewrite occurrences_cons.
    apply elem_of_cons in Hy as [->|Hy].
    + rewrite decide_True by done.
      assert (sum_list_with (λ x, occurrences x (z :: l)) d
              = sum_list_with (λ x, occurrences x l) d) as ->; [|lia].
      clear IHd Hd. induction d as [|w d IHd']; [done|]. simpl.
      rewrite occurrences_cons, decide_False by set_solver.
      rewrite IHd' by set_solver. lia.
    + rewrite decide_False by set_solver. rewrite IHd by done. lia.
Qed.
End counter_facts.

(** ** [sorted] meets the contract of a sort *)

Section sorted_facts.
Context {A : Type} (lt : A → A → bool).
Hypothesis lt_asym : ∀ x y, lt x y = true → lt y x = false.

Lemma insort_Permutation x l : insort lt x l ≡ₚ x :: l.
Proof.
  induction l as [|y l IH]; simpl; [done|].
  destruct (lt x y); [done|]. rewrite IH. apply Permutation_swap.
Qed.

Lemma sorted_from_Permutation l acc :
  foldl (λ acc x, insort lt x acc) acc l ≡ₚ acc ++ l.
Proof.
  revert acc. induction l as [|x l IH]; intros acc; simpl.
  - by rewrite app_nil_r.
  - rewrite IH, insort_Permutation. simpl. apply Permutation_middle.
Qed.

Lemma sorted_Permutation l : sorted lt l ≡ₚ l.
Proof. apply (sorted_from_Permutation l []). Qed.

Lemma insort_HdRel x y l :
  lt x y = false → HdRel (λ a b, lt b a = false) y l →
  HdRel (λ a b, lt b a = false) y (insort lt x l).
Proof.
  intros Hxy Hy. destruct l as [|z l]; simpl; [by constructor|].
  destruct (lt x z); constructor; [done|]. by inv Hy.
Qed.

Lemma insort_Sorted x l :
  Sorted (λ a b, lt b a = false) l →
  Sorted (λ a b, lt b a = false) (insort lt x l).
Proof.
  induction 1 as [|y l Hl IH Hy]; simpl; [by repeat constructor|].
  destruct (lt x y) eqn:Hxy.
  - repeat constructor; auto.
  - constructor; [done|]. by apply insort_HdRel.
Qed.

Lemma sorted_from_Sorted l acc :
  Sorted (λ a b, lt b a = false) acc →
  Sorted (λ a b, lt b a = false) (foldl (λ acc x, insort lt x acc) acc l).
Proof.
  revert acc. induction l as [|x l IH]; intros acc Hacc; simpl; [done|].
  by apply IH, insort_Sorted.
Qed.

Lemma sorted_sorts_asc l : sorts_asc lt l (sorted lt l).
Proof.
  split; [apply sorted_Permutation|]. apply sorted_from_Sorted. constructor.
Qed.

Lemma sorted_reverse_sorts_desc l : sorts_desc lt l (sorted_reverse lt l).
Proof.
  unfold sorted_reverse. split.
  - by rewrite reverse_Permutation, sorted_Permutation, reverse_Permutation.
  - apply (Sorted_reverse (λ a b, lt b a = false)), sorted_sorts_asc.
Qed.
End sorted_facts.

(** A contract with an order that tells the elements of the list apart has
    one result. *)
Lemma sorts_unique {A} (R : relation A) `{!Transitive R} (l o1 o2 : list A) :
  (∀ x y, x ∈ l → y ∈ l → R x y → R y x → x = y) →
  o1 ≡ₚ l → Sorted R o1 → o2 ≡ₚ l → Sorted R o2 → o1 = o2.
Proof.
  intros Hanti Hp1 Hs1 Hp2 Hs2.
  apply (Sorted_unique_strong R); [|done|done|by rewrite Hp1, Hp2].
  intros x y Hx Hy. apply Hanti; [by rewrite <-Hp1|by rewrite <-Hp2].
Qed.

(** ** The order of the [(score, sent)] tuples *)

Ltac cmp_cases :=
  unfold tuple_ltb, key_ltb, span_ltb, span_eqb; simpl;
  repeat match goal with
  | |- context [?a =? ?b] => destruct (Nat.eqb_spec a b)
  | |- context [?a <? ?b] => destruct (Nat.ltb_spec a b)
  end; simpl; intros; try done; try lia.

Lemma tuple_ltb_asym a b : tuple_ltb a b = true → tuple_ltb b a = false.
Proof. cmp_cases. Qed.

Lemma tuple_ltb_false_iff a b :
  tuple_ltb a b = false ↔
  b.1 < a.1 ∨ (b.1 = a.1 ∧
    (start_char b.2 < start_char a.2 ∨
     (start_char b.2 = start_char a.2 ∧ end_char b.2 ≤ end_char a.2))).
Proof. cmp_cases; split; intros; try done; lia. Qed.

Global Instance tuple_ge_trans : Transitive (λ a b, tuple_ltb a b = false).
Proof. intros a b c. rewrite !tuple_ltb_false_iff. lia. Qed.

Lemma key_ltb_asym {A} (a b : nat * A) : key_ltb a b = true → key_ltb b a = false.
Proof. cmp_cases. Qed.

Lemma key_ltb_false_iff {A} (a b : nat * A) : key_ltb a b = false ↔ b.1 ≤ a.1.
Proof. cmp_cases. Qed.

Global Instance key_le_trans {A} :
  Transitive (λ a b : nat * A, key_ltb b a = false).
Proof. intros a b c. rewrite !key_ltb_false_iff. lia. Qed.

Lemma tuple_ltb_tie a b :
  tuple_ltb a b = false → tuple_ltb b a = false →
  a.1 = b.1 ∧ start_char a.2 = start_char b.2.
Proof. cmp_cases. Qed.

Lemma tuple_ltb_false a b :
  tuple_ltb a b = false →
  b.1 < a.1 ∨ (b.1 = a.1 ∧ start_char b.2 ≤ start_char a.2).
Proof. cmp_cases. Qed.

(** ** Generic facts on strongly sorted lists *)

Lemma StronglySorted_lookup {A} (R : relation A) (l : list A) i j x y :
  StronglySorted R l → l !! i = Some x → l !! j = Some y → i < j → R x y.
Proof.
  intros Hl. revert i j. induction Hl as [|z l Hl IH Hz]; intros i j Hi Hj Hij.
  { by rewrite lookup_nil in Hi. }
  destruct i as [|i], j as [|j]; simplify_eq/=; try lia.
  - rewrite Forall_forall in Hz. eapply Hz, list_elem_of_lookup_2, Hj.
  - eapply (IH i j); eauto with lia.
Qed.

Lemma StronglySorted_filter {A} (R : relation A) (P : A → Prop)
    `{∀ x, Decision (P x)} (l : list A) :
  StronglySorted R l → StronglySorted R (filter P l).
Proof.
  induction 1 as [|x l Hl IH Hx]; [constructor|].
  rewrite filter_cons. destruct (decide (P x)); [|done].
  constructor; [done|]. rewrite Forall_forall in *.
  intros y [_ Hy]%list_elem_of_filter. auto.
Qed.

Lemma StronglySorted_fmap_on {A B} (f : A → B) (R1 : relation A)
    (R2 : relation B) (l : list A) :
  (∀ x y, x ∈ l → y ∈ l → R1 x y → R2 (f x) (f y)) →
  StronglySorted R1 l → StronglySorted R2 (f <$> l).
Proof.
  intros Himp Hl. induction Hl as [|x l Hl IH Hx]; csimpl; constructor.
  - apply IH. intros ?????. apply Himp; by try right.
  - rewrite Forall_fmap, Forall_forall in *. intros y Hy. simpl.
    apply Himp; [left|by right|by apply Hx].
Qed.

(** ** Sentences of a segmented document *)

Lemma increasing_from_sorted lo doc :
  increasing_from lo doc = true →
  (∀ c, lo = Some c → Forall (λ s, c < start_char s) doc) ∧
  StronglySorted by_start doc.
Proof.
  revert lo. induction doc as [|s doc IH]; intros lo Hinc; simpl in Hinc.
  { split; [by constructor|constructor]. }
  apply andb_true_iff in Hinc as [Hlo Hinc].
  destruct (IH _ Hinc) as [Hs Hdoc]. specialize (Hs _ eq_refl). split.
  - intros c ->. apply Nat.ltb_lt in Hlo. constructor; [done|].
    eapply Forall_impl; [done|]. simpl. lia.
  - by constructor.
Qed.

Lemma wf_doc_sorted doc : wf_doc doc = true → StronglySorted by_start doc.
Proof. intros Hwf. by apply increasing_from_sorted in Hwf as [_ ?]. Qed.

Lemma start_char_inj doc s t :
  StronglySorted by_start doc → s ∈ doc → t ∈ doc →
  start_char s = start_char t → s = t.
Proof.
  intros Hdoc [i Hi]%list_elem_of_lookup_1 [j Hj]%list_elem_of_lookup_1 Heq.
  destruct (Nat.lt_trichotomy i j) as [Hlt|[->|Hlt]]; [|congruence|].
  - pose proof (StronglySorted_lookup _ _ _ _ _ _ Hdoc Hi Hj Hlt) as Hst.
    unfold by_start in Hst. lia.
  - pose proof (StronglySorted_lookup _ _ _ _ _ _ Hdoc Hj Hi Hlt) as Hst.
    unfold by_start in Hst. lia.
Qed.

Lemma wf_doc_NoDup doc : StronglySorted by_start doc → NoDup doc.
Proof.
  induction 1 as [|s doc Hdoc IH Hs]; constructor; [|done].
  intros Hin. rewrite Forall_forall in Hs. specialize (Hs _ Hin).
  unfold by_start in Hs. lia.
Qed.

Lemma span_eqb_refl s : span_eqb s s = true.
Proof. unfold span_eqb. by rewrite !Nat.eqb_refl. Qed.

Lemma span_eqb_start s t : span_eqb s t = true → start_char s = start_char t.
Proof. unfold span_eqb. intros [?%Nat.eqb_eq _]%andb_true_iff. done. Qed.

Lemma index_Ok_inv doc s i :
  index doc s = Ok i → ∃ t, doc !! i = Some t ∧ span_eqb t s = true.
Proof.
  revert i. induction doc as [|t doc IH]; intros i; simpl; [done|].
  destruct (span_eqb t s) eqn:Heq.
  - intros [= <-]. eauto.
  - destruct (index doc s) as [e|j] eqn:Hj; simpl; [done|].
    intros [= <-]. destruct (IH j eq_refl) as (u & ? & ?). eauto.
Qed.

Lemma index_elem doc s : s ∈ doc → ∃ i, index doc s = Ok i.
Proof.
  induction 1 as [s doc|s t doc Hin [i IH]]; simpl.
  - rewrite span_eqb_refl. eauto.
  - destruct (span_eqb t s); [eauto|]. rewrite IH. simpl. eauto.
Qed.

Lemma index_lookup doc s i :
  StronglySorted by_start doc → s ∈ doc → index doc s = Ok i →
  doc !! i = Some s.
Proof.
  intros Hdoc Hin (t & Ht & Heq)%index_Ok_inv. rewrite Ht. f_equal.
  eapply start_char_inj; eauto using list_elem_of_lookup_2, span_eqb_start.
Qed.

(** ** What [keys_of] returns *)

Lemma keys_of_Ok {A} (key : A → res nat) (l : list A) kl :
  keys_of key l = Ok kl →
  snd <$> kl = l ∧ Forall (λ p, key p.2 = Ok p.1) kl.
Proof.
  revert kl. induction l as [|x l IH]; intros kl; simpl.
  { intros [= <-]. by split. }
  destruct (key x) as [e|k] eqn:Hk; simpl; [done|].
  destruct (keys_of key l) as [e|kl'] eqn:Hkl; simpl; [done|].
  intros [= <-]. destruct (IH _ eq_refl) as [<- ?]. split; [done|].
  by constructor.
Qed.

Lemma keys_of_total {A} (key : A → res nat) (l : list A) :
  (∀ x, x ∈ l → ∃ k, key x = Ok k) → ∃ kl, keys_of key l = Ok kl.
Proof.
  induction l as [|x l IH]; intros Hkey; simpl; [eauto|].
  destruct (Hkey x) as [k ->]; [left|]. simpl.
  destruct IH as [kl ->]; [intros; apply Hkey; by right|]. simpl. eauto.
Qed.

(** ** The scored sentences and their two orderings *)

Section extractive_facts.
Variable lower : string → string.

Lemma score_loop_from word_freq sentences acc :
  foldl (λ sent_scores sent,
           sent_scores ++ [(score lower word_freq sent, sent)]) acc sentences
  = acc ++ ((λ s, (score lower word_freq s, s)) <$> sentences).
Proof.
  revert acc. induction sentences as [|s l IH]; intros acc; csimpl.
  - by rewrite app_nil_r.
  - by rewrite IH, <-app_assoc.
Qed.

Lemma score_loop_fmap word_freq sentences :
  score_loop lower word_freq sentences
  = (λ s, (score lower word_freq s, s)) <$> sentences.
Proof. apply (score_loop_from _ _ []). Qed.

Lemma sent_scores_snd doc : snd <$> sent_scores_of lower doc = doc.
Proof.
  unfold sent_scores_of. rewrite score_loop_fmap, <-list_fmap_compose.
  apply list_fmap_id.
Qed.

Lemma sent_scores_elem doc x :
  x ∈ sent_scores_of lower doc ↔
  x.2 ∈ doc ∧ x.1 = score lower (word_freq_of lower doc) x.2.
Proof.
  unfold sent_scores_of. rewrite score_loop_fmap, list_elem_of_fmap. split.
  - intros (s & -> & Hs). done.
  - intros [Hs Hx]. exists x.2. split; [|done]. destruct x; simpl in *.
    by subst.
Qed.

Lemma sent_scores_tie doc x y :
  StronglySorted by_start doc →
  x ∈ sent_scores_of lower doc → y ∈ sent_scores_of lower doc →
  start_char x.2 = start_char y.2 → x = y.
Proof.
  intros Hdoc [Hx Hsx]%sent_scores_elem [Hy Hsy]%sent_scores_elem Heq.
  assert (x.2 = y.2) as H2 by eauto using start_char_inj.
  destruct x, y; simpl in *. congruence.
Qed.

Lemma sent_scores_NoDup doc :
  StronglySorted by_start doc → NoDup (sent_scores_of lower doc).
Proof.
  intros Hdoc. apply (NoDup_fmap_1 snd). rewrite sent_scores_snd.
  by apply wf_doc_NoDup.
Qed.

Lemma sent_scores_sorted doc :
  StronglySorted by_start doc →
  StronglySorted (λ x y, start_char x.2 ≤ start_char y.2)
                 (sent_scores_of lower doc).
Proof.
  intros Hdoc. unfold sent_scores_of. rewrite score_loop_fmap.
  eapply StronglySorted_fmap; [|done]. unfold by_start. simpl. lia.
Qed.

Lemma ranked_sorts doc :
  sorts_desc tuple_ltb (sent_scores_of lower doc) (ranked lower doc).
Proof. apply sorted_reverse_sorts_desc, tuple_ltb_asym. Qed.

(** On a segmented document the tuple order leaves no ties, so the
    contract of the descending sort has one result. *)
Lemma ranking_unique doc ranking :
  StronglySorted by_start doc →
  sorts_desc tuple_ltb (sent_scores_of lower doc) ranking →
  ranking = ranked lower doc.
Proof.
  intros Hdoc [Hp Hs]. destruct (ranked_sorts doc) as [Hp' Hs'].
  eapply (sorts_unique (λ a b, tuple_ltb a b = false)); eauto.
  intros x y Hx Hy Hxy Hyx.
  destruct (tuple_ltb_tie _ _ Hxy Hyx) as [_ Hst].
  eauto using sent_scores_tie.
Qed.

(** Sorting a selection of the scored sentences by [sentences.index] puts
    it back in document order, whatever the routine does with ties. *)
Lemma reorder_contract doc top keyed ordered :
  StronglySorted by_start doc →
  NoDup top → (∀ x, x ∈ top → x ∈ sent_scores_of lower doc) →
  keys_of (λ x, index doc x.2) top = Ok keyed →
  sorts_asc key_ltb keyed ordered →
  snd <$> ordered = filter (λ x, x ∈ top) (sent_scores_of lower doc).
Proof.
  intros Hdoc Hnd Hsub [Hsnd Hkeys]%keys_of_Ok [Hperm Hsorted].
  rewrite Forall_forall in Hkeys.
  assert (∀ p, p ∈ ordered → p.2 ∈ top ∧ doc !! p.1 = Some p.2.2) as Hel.
  { intros p Hp. rewrite Hperm in Hp.
    assert (p.2 ∈ top) as Htop.
    { rewrite <-Hsnd. apply list_elem_of_fmap. eauto. }
    split; [done|]. apply index_lookup; [done| |by apply Hkeys].
    by apply sent_scores_elem, Hsub. }
  apply (StronglySorted_unique_strong
           (λ x y : nat * Span, start_char x.2 ≤ start_char y.2)).
  - intros x y Hx [Hy Hy']%list_elem_of_filter ??.
    eapply sent_scores_tie; eauto with lia.
    apply Hsub. apply list_elem_of_fmap in Hx as (p & -> & Hp).
    by apply Hel.
  - apply Sorted_StronglySorted in Hsorted; [|apply _].
    eapply StronglySorted_fmap_on; [|done].
    intros p q Hp Hq Hpq. apply key_ltb_false_iff in Hpq.
    destruct (Hel p Hp) as [_ Hp'], (Hel q Hq) as [_ Hq'].
    destruct (decide (p.1 = q.1)) as [Heq|Hne].
    + rewrite Heq in Hp'. assert (p.2.2 = q.2.2) as -> by congruence. done.
    + assert (p.1 < q.1) as Hlt by lia.
      pose proof (StronglySorted_lookup _ _ _ _ _ _ Hdoc Hp' Hq' Hlt) as Hst.
      unfold by_start in Hst. lia.
  - by apply StronglySorted_filter, sent_scores_sorted.
  - rewrite Hperm, Hsnd. apply NoDup_Permutation; [done| |].
    + by apply NoDup_filter, sent_scores_NoDup.
    + intros x. rewrite list_elem_of_filter. naive_solver.
Qed.
End extractive_facts.

Lemma filter_all {A} (P : A → Prop) `{∀ x, Decision (P x)} (l : list A) :
  (∀ x, x ∈ l → P x) → filter P l = l.
Proof.
  induction l as [|x l IH]; intros HP; [done|].
  rewrite filter_cons, decide_True by (apply HP; left).
  f_equal. apply IH. intros; apply HP; by right.
Qed.

Section selection_facts.
Variable lower : string → string.

Lemma ranked_elem doc x :
  x ∈ ranked lower doc ↔ x ∈ sent_scores_of lower doc.
Proof. destruct (ranked_sorts lower doc) as [Hp _]. by rewrite Hp. Qed.

Lemma ranked_length doc : length (ranked lower doc) = length doc.
Proof.
  destruct (ranked_sorts lower doc) as [Hp _]. rewrite Hp.
  by rewrite <-(sent_scores_snd lower doc) at 2; rewrite length_fmap.
Qed.

Lemma take_ranked_elem doc m x :
  x ∈ take m (ranked lower doc) → x ∈ sent_scores_of lower doc.
Proof.
  intros Hx. apply ranked_elem. eapply elem_of_sublist; [done|].
  apply sublist_take.
Qed.

(** The key of the second sort never raises: every selected sentence is a
    sentence of the document. *)
Lemma keys_of_take_total doc m :
  ∃ keyed,
    keys_of (λ x, index doc x.2) (take m (ranked lower doc)) = Ok keyed.
Proof.
  apply keys_of_total. intros x Hx%take_ranked_elem.
  apply index_elem. by apply sent_scores_elem in Hx as [? _].
Qed.

Lemma reorder_take doc m :
  wf_doc doc = true →
  sorted_key (λ x, index doc x.2) (take m (ranked lower doc))
  = Ok (filter (λ x, x ∈ take m (ranked lower doc))
               (sent_scores_of lower doc)).
Proof.
  intros Hdoc%wf_doc_sorted. unfold sorted_key.
  destruct (keys_of_take_total doc m) as [keyed Hkeyed].
  rewrite Hkeyed. simpl. f_equal.
  apply (reorder_contract lower doc (take m (ranked lower doc)) keyed);
    [done| |apply take_ranked_elem|done|].
  - apply (sublist_NoDup _ (ranked lower doc)); [|apply sublist_take].
    destruct (ranked_sorts lower doc) as [Hp _]. rewrite Hp.
    by apply sent_scores_NoDup.
  - apply sorted_sorts_asc, @key_ltb_asym.
Qed.

Lemma slice_to_int {A} (l : list A) (z : Z) :
  slice_to l (PyInt z)
  = Ok (take (Z.to_nat (if (z <? 0)%Z
                         then Z.max (z + Z.of_nat (length l)) 0
                         else Z.min z (Z.of_nat (length l)))) l).
Proof. reflexivity. Qed.
End selection_facts.

(** * The claims on [extractive_summary] *)

Section extractive_claims.
Variable lower : string → string.

Lemma informative_iff t :
  informative t ↔ is_stop t = false ∧ is_punct t = false.
Proof. unfold informative. by destruct (is_stop t), (is_punct t); naive_solver. Qed.

Lemma words_of_app ts1 ts2 :
  words_of lower (ts1 ++ ts2) = words_of lower ts1 ++ words_of lower ts2.
Proof. unfold words_of. by rewrite filter_app, fmap_app. Qed.

Lemma occurrences_words_of w ts :
  occurrences w (words_of lower ts) = informative_count lower w ts.
Proof.
  unfold informative_count, words_of.
  induction ts as [|t ts IH]; [done|].
  rewrite !filter_cons. destruct (decide (informative t)) as [Ht|Ht].
  - csimpl. rewrite occurrences_cons, IH.
    destruct (decide (lower (text t) = w)).
    + by rewrite decide_True by done.
    + by rewrite decide_False by (by intros [_ ?]).
  - rewrite decide_False by (by intros [? _]). done.
Qed.

Lemma occurrences_doc_words w doc :
  occurrences w (words_of lower (doc_tokens doc))
  = sum_list_with (λ s, informative_count lower w (span_tokens s)) doc.
Proof.
  unfold doc_tokens. induction doc as [|s doc IH]; [done|]. csimpl.
  by rewrite words_of_app, occurrences_app, occurrences_words_of, IH.
Qed.

Lemma informative_count_flags w ts :
  informative_count lower w ts
  = length (filter (λ t, is_stop t = false ∧ is_punct t = false ∧
                         lower (text t) = w) ts).
Proof.
  unfold informative_count. f_equal. apply list_filter_iff.
  intros t. rewrite informative_iff. tauto.
Qed.

Lemma occurrences_doc_words_flags w doc :
  occurrences w (words_of lower (doc_tokens doc))
  = sum_list_with
      (λ s, length (filter (λ t, is_stop t = false ∧ is_punct t = false ∧
                                 lower (text t) = w) (span_tokens s))) doc.
Proof.
  rewrite occurrences_doc_words.
  induction doc as [|s doc IH]; [done|]. simpl.
  by rewrite informative_count_flags, IH.
Qed.

(** C5. The frequency table maps a case-folded word to the number of tokens
    of the whole document that are not stopwords, are not punctuation and
    have that case-folded text, each occurrence in each sentence counted
    once; a word with no such token has no entry, and the table of the empty
    document is empty. *)
Theorem word_freq_counts_informative_tokens doc :
  (∀ w,
     word_freq_of lower doc !! w
     = let n := sum_list_with
                  (λ s, length
                          (filter (λ t, is_stop t = false ∧
                                        is_punct t = false ∧
                                        lower (text t) = w)
                                  (span_tokens s))) doc in
       if decide (n = 0) then None else Some n)
  ∧ word_freq_of lower [] = ∅.
Proof.
  split; [|done]. intros w. unfold word_freq_of. rewrite Counter_lookup.
  rewrite <-occurrences_doc_words_flags. simpl.
  destruct (decide (w ∈ _)) as [Hin|Hin].
  - apply occurrences_pos in Hin. rewrite decide_False by lia. done.
  - rewrite decide_True; [done|].
    destruct (occurrences w (words_of lower (doc_tokens doc))) eqn:Hn;
      [done|].
    exfalso. apply Hin, occurrences_pos. lia.
Qed.
(** C6. Whatever the frequency table, the ranker pairs every sentence, in
    document order, with the sum over its informative tokens of the table's
    count for the case-folded text, an absent word counting 0; a sentence
    whose tokens are all stopwords or punctuation scores 0. *)
Theorem sentence_score_sums_table_counts (table : gmap string nat) doc :
  score_loop lower table doc
  = (λ s, (sum_list_with (λ t, default 0 (table !! lower (text t)))
             (filter (λ t, is_stop t = false ∧ is_punct t = false)
                     (span_tokens s)), s)) <$> doc
  ∧ ∀ s, Forall (λ t, is_stop t = true ∨ is_punct t = true) (span_tokens s) →
         score lower table s = 0.
Proof.
  split.
  - rewrite score_loop_fmap. apply list_fmap_ext. intros _ s _. f_equal.
    unfold score, words_of.
    rewrite (list_filter_iff _ _ _ informative_iff).
    induction (filter _ (span_tokens s)) as [|t ts IH]; [done|].
    csimpl. by rewrite IH.
  - intros s Hs. unfold score, words_of.
    induction Hs as [|t ts Ht _ IH]; [done|].
    rewrite filter_cons, decide_False; [done|].
    rewrite informative_iff. intros [??]. destruct Ht; congruence.
Qed.

Lemma extractive_summary_int doc (z : Z) m :
  wf_doc doc = true →
  slice_to (ranked lower doc) (PyInt z) = Ok (take m (ranked lower doc)) →
  select_top lower doc (PyInt z)
  = Ok (filter (λ x, x ∈ take m (ranked lower doc))
               (sent_scores_of lower doc)).
Proof.
  intros Hdoc Hslice. unfold select_top. rewrite Hslice. simpl.
  by apply reorder_take.
Qed.

(** C4. With a bound [k] of at least the number of sentences, the selection
    is every scored sentence in document order, and the summary joins the
    text of all the sentences in that order. *)
Theorem select_all_in_document_order doc (k : Z) :
  wf_doc doc = true → (Z.of_nat (length doc) ≤ k)%Z →
  select_top lower doc (PyInt k) = Ok (sent_scores_of lower doc) ∧
  extractive_summary lower doc (PyInt k)
  = Ok (join " " (span_text <$> doc)).
Proof.
  intros Hdoc Hk.
  assert (select_top lower doc (PyInt k) = Ok (sent_scores_of lower doc))
    as Hsel.
  { rewrite (extractive_summary_int doc k (length doc) Hdoc).
    - f_equal. apply filter_all. intros x Hx.
      rewrite take_ge by (by rewrite ranked_length). by apply ranked_elem.
    - rewrite slice_to_int, ranked_length. do 2 f_equal.
      destruct (Z.ltb_spec k 0); lia. }
  split; [done|]. unfold extractive_summary. rewrite Hsel. simpl.
  do 2 f_equal. rewrite <-(sent_scores_snd lower doc) at 2.
  by rewrite <-list_fmap_compose.
Qed.
Lemma slice_to_negative {A} (l : list A) (n : nat) :
  0 < n → slice_to l (PyInt (- Z.of_nat n)) = Ok (take (length l - n) l).
Proof.
  intros Hn. rewrite slice_to_int. do 2 f_equal.
  destruct (Z.ltb_spec (- Z.of_nat n) 0); lia.
Qed.

Lemma slice_to_take {A} (l top : list A) k :
  slice_to l k = Ok top → ∃ m, top = take m l.
Proof.
  destruct k as [z| |]; simpl; [| |done].
  - intros [= <-]. eauto.
  - intros [= <-]. exists (length l). by rewrite take_ge.
Qed.

(** Once the slice has returned, the rest of the call returns too. *)
Lemma summary_of_take doc k m :
  slice_to (ranked lower doc) k = Ok (take m (ranked lower doc)) →
  ∃ summary, extractive_summary lower doc k = Ok summary.
Proof.
  intros Hslice. unfold extractive_summary, select_top, sorted_key.
  rewrite Hslice. simpl.
  destruct (keys_of_take_total lower doc m) as [keyed ->]. simpl. eauto.
Qed.

Lemma ranked_strongly_sorted doc :
  StronglySorted (λ a b, tuple_ltb a b = false) (ranked lower doc).
Proof.
  destruct (ranked_sorts lower doc) as [_ Hs].
  by apply Sorted_StronglySorted in Hs; [|apply _].
Qed.

(** C10. A negative bound [-n] raises nothing.  When [n] is at least the
    number [s] of sentences the summary is the empty string; otherwise it
    joins, in document order, the sentences among the first [s - n] of the
    ranking.  The ranking splits the scored sentences of the document into
    the [s - n] that are kept and the [n] that are left out, and no sentence
    left out ranks above or scores higher than a sentence that is kept: the
    [n] left out are lowest-scoring ones. *)
Theorem negative_bound_drops_lowest_ranked doc (n : nat) :
  0 < n →
  let k := PyInt (- Z.of_nat n) in
  let kept := take (length doc - n) (ranked lower doc) in
  let dropped := drop (length doc - n) (ranked lower doc) in
  (∃ summary, extractive_summary lower doc k = Ok summary) ∧
  (length doc ≤ n → extractive_summary lower doc k = Ok EmptyString) ∧
  (wf_doc doc = true → n < length doc →
     extractive_summary lower doc k
     = Ok (join " " ((λ x, span_text x.2)
                       <$> filter (λ x, x ∈ kept) (sent_scores_of lower doc)))
     ∧ length kept = length doc - n ∧ length dropped = n
     ∧ (∀ x y, x ∈ kept → y ∈ dropped → tuple_ltb x y = false)
     ∧ kept ++ dropped ≡ₚ sent_scores_of lower doc
     ∧ ∀ x y, x ∈ kept → y ∈ dropped → y.1 ≤ x.1).
Proof.
  intros Hn k kept dropped. subst k.
  pose proof (slice_to_negative (ranked lower doc) n Hn) as Hslice.
  rewrite ranked_length in Hslice. fold kept in Hslice.
  split; [by eapply summary_of_take|]. split.
  - intros Hle. unfold extractive_summary, select_top. rewrite Hslice.
    unfold kept. by replace (length doc - n) with 0 by lia.
  - intros Hdoc Hlt.
    assert (∀ x y, x ∈ kept → y ∈ dropped → tuple_ltb x y = false) as Hrank.
    { intros x y Hx Hy.
      apply (StronglySorted_app_1_elem_of (λ a b, tuple_ltb a b = false)
               kept dropped); [|done..].
      unfold kept, dropped. rewrite take_drop.
      apply ranked_strongly_sorted. }
    split; [|split; [|split; [|split; [|split]]]].
    + unfold extractive_summary.
      by rewrite (extractive_summary_int doc _ _ Hdoc Hslice).
    + unfold kept. rewrite length_take, ranked_length. lia.
    + unfold dropped. rewrite length_drop, ranked_length. lia.
    + done.
    + unfold kept, dropped. rewrite take_drop.
      by destruct (ranked_sorts lower doc) as [Hperm _].
    + intros x y Hx Hy. specialize (Hrank x y Hx Hy).
      apply tuple_ltb_false_iff in Hrank. lia.
Qed.

(** C1 (as the code has it). In the descending sort of the [(score, sent)]
    tuples a sentence comes before another when its score is greater, and
    among sentences of equal score when it stands later in the document:
    ties go to the greater original index. *)
Theorem ranking_breaks_ties_by_later_position doc i j a b p q :
  wf_doc doc = true →
  ranked lower doc !! i = Some a → ranked lower doc !! j = Some b → i < j →
  doc !! p = Some a.2 → doc !! q = Some b.2 →
  b.1 < a.1 ∨ (b.1 = a.1 ∧ q < p).
Proof.
  intros Hdoc%wf_doc_sorted Hi Hj Hij Hp Hq.
  pose proof (StronglySorted_lookup _ _ _ _ _ _
                (ranked_strongly_sorted doc) Hi Hj Hij) as Hab.
  apply tuple_ltb_false in Hab as [?|[Hsc Hst]]; [by left|right].
  split; [done|].
  destruct (Nat.lt_trichotomy p q) as [Hlt|[->|Hlt]]; [| |done].
  - pose proof (StronglySorted_lookup _ _ _ _ _ _ Hdoc Hp Hq Hlt) as Hpq.
    unfold by_start in Hpq. lia.
  - assert (a = b) as ->.
    { destruct a, b; simpl in *. congruence. }
    assert (NoDup (ranked lower doc)) as Hnd.
    { destruct (ranked_sorts lower doc) as [Hperm _]. rewrite Hperm.
      by apply sent_scores_NoDup. }
    pose proof (NoDup_lookup _ _ _ _ Hnd Hi Hj). lia.
Qed.

(** C3 (as the code has it). A bound with no integer value is rejected
    with [TypeError], raised by the slice of the ranking; a negative
    integer and [None] are not rejected, the call returns a summary. *)
Theorem bound_without_index_raises_negative_returns doc :
  extractive_summary lower doc PyNonIndex = Raise TypeError ∧
  (∀ z, (z < 0)%Z →
     ∃ summary, extractive_summary lower doc (PyInt z) = Ok summary) ∧
  (∃ summary, extractive_summary lower doc PyNone = Ok summary).
Proof.
  split; [done|]. split.
  - intros z Hz. eapply summary_of_take. apply slice_to_int.
  - apply (summary_of_take doc PyNone (length (ranked lower doc))).
    simpl. by rewrite take_ge.
Qed.

(** C9. Every result the call can produce, with the two sorts held to
    their contract only, is the one result [extractive_summary] computes:
    the output is a function of the document and the bound. *)
Theorem summary_is_determined doc k out :
  wf_doc doc = true →
  summary_run lower doc k out ↔ out = extractive_summary lower doc k.
Proof.
  intros Hwf. pose proof (wf_doc_sorted _ Hwf) as Hdoc.
  assert (∀ top keyed ordered,
    slice_to (ranked lower doc) k = Ok top →
    keys_of (λ x, index doc x.2) top = Ok keyed →
    sorts_asc key_ltb keyed ordered →
    snd <$> ordered = snd <$> sorted key_ltb keyed) as Huniq.
  { intros top keyed ordered [m ->]%slice_to_take Hkeyed Hord.
    assert (NoDup (take m (ranked lower doc))) as Hnd.
    { apply (sublist_NoDup _ (ranked lower doc)); [|apply sublist_take].
      destruct (ranked_sorts lower doc) as [Hp _]. rewrite Hp.
      by apply sent_scores_NoDup. }
    rewrite (reorder_contract lower doc _ keyed ordered Hdoc Hnd
               (take_ranked_elem lower doc m) Hkeyed Hord).
    symmetry. apply (reorder_contract lower doc _ keyed _ Hdoc Hnd
               (take_ranked_elem lower doc m) Hkeyed).
    apply sorted_sorts_asc, @key_ltb_asym. }
  unfold summary_run, extractive_summary, select_top, sorted_key. split.
  - intros (ranking & Hrank & Hout).
    apply (ranking_unique lower doc ranking Hdoc) in Hrank as ->.
    destruct (slice_to (ranked lower doc) k) as [e|top]; simpl; [done|].
    destruct (keys_of _ top) as [e|keyed] eqn:Hkeyed; simpl; [done|].
    destruct Hout as (ordered & Hord & ->).
    by rewrite (Huniq top keyed ordered).
  - intros ->. exists (ranked lower doc). split; [apply ranked_sorts|].
    destruct (slice_to (ranked lower doc) k) as [e|top]; simpl; [done|].
    destruct (keys_of _ top) as [e|keyed] eqn:Hkeyed; simpl; [done|].
    exists (sorted key_ltb keyed). split; [|done].
    apply sorted_sorts_asc, @key_ltb_asym.
Qed.
End extractive_claims.

(** * The claim on [preprocess_df] *)

Section preprocess_claims.
Variable strip : string → string.

Lemma usableb_iff r : usableb strip r = true ↔ usable strip r.
Proof.
  unfold usableb, usable, notna, nonempty, strip_row. simpl.
  destruct (article r) as [a|], (highlights r) as [h|]; simpl;
    try (split; [done|]; by intros [[? [? ?]] [? [? ?]]]).
  rewrite andb_true_iff, !negb_true_iff, !String.eqb_neq. naive_solver.
Qed.

Lemma usableb_pair r1 r2 :
  stripped_pair strip r1 = stripped_pair strip r2 →
  usableb strip r1 = usableb strip r2.
Proof.
  unfold stripped_pair, usableb, notna, nonempty, strip_row. simpl.
  destruct (article r1), (highlights r1), (article r2), (highlights r2);
    simpl; intros; simplify_eq; congruence.
Qed.

Lemma before_duplicates df :
  drop_empty (strip_columns strip (dropna df))
  = (λ x, (x.1, strip_row strip x.2)) <$> filter (λ x, usableb strip x.2) df.
Proof.
  unfold drop_empty, strip_columns, dropna.
  induction df as [|[i r] df IH]; [done|].
  rewrite !filter_cons. simpl.
  destruct (decide (notna r)) as [Hna|Hna]; csimpl.
  - rewrite filter_cons. simpl. fold (strip_row strip r).
    destruct (decide (nonempty (strip_row strip r))) as [Hne|Hne].
    + rewrite decide_True by (by apply andb_True). csimpl. by rewrite IH.
    + rewrite decide_False by (by intros [_ ?]%andb_True). done.
  - rewrite decide_False by (by intros [? _]%andb_True). done.
Qed.

Lemma drop_duplicates_from_sublist seen df :
  (drop_duplicates_from seen df) `sublist_of` df.
Proof.
  revert seen. induction df as [|x df IH]; intros seen; simpl; [done|].
  destruct (decide _); [by apply sublist_cons|by apply sublist_skip].
Qed.

Lemma drop_duplicates_from_elem seen before x after :
  NoDup (before ++ x :: after) →
  (x ∈ drop_duplicates_from seen (before ++ x :: after)) ↔
  (¬ subset_key x.2 ∈ seen ∧
   ∀ y, y ∈ before → subset_key y.2 ≠ subset_key x.2).
Proof.
  revert seen. induction before as [|y before IH]; intros seen Hnd;
    rewrite <-?app_comm_cons in *; cbn [app drop_duplicates_from] in *.
  - apply NoDup_cons in Hnd as [Hx _]. destruct (decide _) as [Hseen|Hseen].
    + split; [|naive_solver]. intros Hin. destruct Hx.
      eapply elem_of_sublist, drop_duplicates_from_sublist. done.
    + split; [|left]. intros _. split; [done|]. by intros ? ?%elem_of_nil.
  - apply NoDup_cons in Hnd as [Hy Hnd].
    assert (x ≠ y) as Hxy.
    { intros ->. apply Hy, elem_of_app. right. left. }
    destruct (decide _) as [Hseen|Hseen].
    + rewrite IH by done. split.
      * intros [Hx Hb]. split; [done|]. intros z [->|?]%elem_of_cons; [|auto].
        congruence.
      * intros [Hx Hb]. split; [done|]. intros z ?. apply Hb. by right.
    + rewrite elem_of_cons, IH by done.
      rewrite elem_of_union, elem_of_singleton. split.
      * intros [?|[Hx Hb]]; [done|]. split; [tauto|].
        intros z [->|?]%elem_of_cons; [|auto].
        intros Heq. apply Hx. by left.
      * intros [Hx Hb]. right. split.
        -- intros [Heq|?]; [|done]. by apply (Hb y); [left|].
        -- intros z ?. apply Hb. by right.
Qed.

Lemma range_index_NoDup_fst rows : NoDup (fst <$> range_index rows).
Proof.
  unfold range_index. rewrite fmap_imap.
  rewrite (imap_ext _ (λ i _, i)) by done.
  rewrite imap_seq_0, list_fmap_id. apply NoDup_seq.
Qed.
Lemma fst_strip_rows (df : DataFrame) :
  fst <$> ((λ x, (x.1, strip_row strip x.2)) <$> df) = fst <$> df.
Proof. rewrite <-list_fmap_compose. by apply list_fmap_ext. Qed.

Lemma cleaned_elem df before x after :
  NoDup (fst <$> df) → df = before ++ x :: after →
  (x.1, strip_row strip x.2) ∈ cleaned strip df ↔
  usable strip x.2 ∧
  ∀ y, y ∈ before → stripped_pair strip y.2 ≠ stripped_pair strip x.2.
Proof.
  intros Hnd ->. unfold cleaned. rewrite before_duplicates.
  rewrite filter_app, filter_cons.
  destruct (decide (usableb strip x.2)) as [Hx|Hx].
  - rewrite fmap_app, fmap_cons. unfold drop_duplicates.
    rewrite drop_duplicates_from_elem.
    + rewrite <-usableb_iff. split.
      * intros [_ Hb]. split; [by apply Is_true_true|].
        intros y Hy Hpair. apply (Hb (y.1, strip_row strip y.2)); [|done].
        apply list_elem_of_fmap. exists y. split; [done|].
        apply list_elem_of_filter. split; [|done].
        by rewrite (usableb_pair y.2 x.2).
      * intros [_ Hb]. split; [apply not_elem_of_empty|].
        intros y' (y & -> & [_ Hy]%list_elem_of_filter)%list_elem_of_fmap.
        by apply Hb.
    + apply (NoDup_fmap_1 fst).
      rewrite fmap_app, fmap_cons, !fst_strip_rows. simpl.
      rewrite fmap_app, fmap_cons in Hnd.
      eapply sublist_NoDup; [exact Hnd|].
      apply sublist_app; [apply fmap_sublist, sublist_filter|].
      apply sublist_skip, fmap_sublist, sublist_filter.
  - split.
    + intros Hin. exfalso.
      eapply elem_of_sublist in Hin; [|apply drop_duplicates_from_sublist].
      apply list_elem_of_fmap in Hin as (y & Hy & Hin).
      assert (y ∈ before ++ after) as Hy'.
      { rewrite elem_of_app in Hin |- *.
        destruct Hin as [[_ ?]%list_elem_of_filter|[_ ?]%list_elem_of_filter];
          auto. }
      assert (y.1 = x.1) as Hfst by (by injection Hy).
      rewrite fmap_app, fmap_cons in Hnd.
      apply NoDup_app in Hnd as (_ & Hnd1 & Hnd2).
      apply NoDup_cons in Hnd2 as [Hnd2 _].
      apply elem_of_app in Hy' as [Hy'|Hy'].
      * apply (Hnd1 x.1); [|left]. rewrite <-Hfst.
        apply list_elem_of_fmap. eauto.
      * apply Hnd2. rewrite <-Hfst. apply list_elem_of_fmap. eauto.
    + intros [Hu _]. by apply usableb_iff, Is_true_true in Hu.
Qed.

(** C8. The cleaned frame holds stripped rows of the input in their
    input order.  A row is kept exactly when both its text cells are
    strings that are not empty after stripping and no row before it has the
    same pair of stripped cells: of the rows sharing a pair the first
    stays.  Resetting the index only relabels the rows. *)
Theorem preprocess_df_keeps_first_usable_rows rows :
  let df := range_index rows in
  let body := cleaned strip df in
  body `sublist_of` ((λ x, (x.1, strip_row strip x.2)) <$> df) ∧
  (∀ before x after, df = before ++ x :: after →
     (x.1, strip_row strip x.2) ∈ body ↔
     usable strip x.2 ∧
     ∀ y, y ∈ before → stripped_pair strip y.2 ≠ stripped_pair strip x.2) ∧
  snd <$> preprocess_df strip df = snd <$> body.
Proof.
  intros df body. split; [|split].
  - unfold body, cleaned. rewrite before_duplicates.
    etrans; [apply drop_duplicates_from_sublist|].
    apply fmap_sublist, sublist_filter.
  - intros before x after Hdf.
    by apply (cleaned_elem df before x after);
      [apply range_index_NoDup_fst|].
  - unfold preprocess_df, reset_index, range_index. fold body.
    rewrite fmap_imap. rewrite (imap_ext _ (λ _ r, r)) by done.
    clear. induction (snd <$> body) as [|r l IH]; [done|].
    simpl. f_equal. by rewrite <-IH at 2.
Qed.
End preprocess_claims.

(** * The claims on the overlap scores *)

Section overlap_claims.
Local Open Scope Q_scope.

Lemma sum_list_with_ext {A} (f g : A → nat) (l : list A) :
  (∀ x, x ∈ l → f x = g x) → sum_list_with f l = sum_list_with g l.
Proof.
  induction l as [|x l IH]; intros Hfg; [done|]. simpl.
  rewrite (Hfg x) by left. rewrite IH; [done|]. intros; apply Hfg; by right.
Qed.

Lemma overlapCount_occurrences (rg cg : list (list string)) :
  overlapCount rg cg
  = sum_list_with (λ g, occurrences g rg `min` occurrences g cg)
                  (remove_dups (rg ++ cg)).
Proof.
  unfold overlapCount.
  rewrite (sum_list_with_ext _
             (λ g, occurrences g rg `min` occurrences g cg))
    by (intros; by rewrite !Counter_get0).
  apply sum_list_with_Permutation_proper, NoDup_Permutation.
  - apply NoDup_elements.
  - apply NoDup_remove_dups.
  - intros g. rewrite elem_of_elements, elem_of_union, !Counter_dom,
      !elem_of_list_to_set, elem_of_remove_dups, elem_of_app. done.
Qed.

Lemma ratio_quotient (a b : nat) :
  ratio a b == if decide (b = 0%nat) then 0
               else inject_Z (Z.of_nat a) / inject_Z (Z.of_nat b).
Proof.
  unfold ratio. destruct (Nat.eqb_spec b 0) as [->|Hb].
  - by rewrite decide_True.
  - rewrite decide_False by done.
    rewrite (Qmake_Qdiv (Z.of_nat a) (Pos.of_nat b)).
    replace (Z.pos (Pos.of_nat b)) with (Z.of_nat b); [reflexivity|].
    destruct b; [done|]. by rewrite <-Pos.of_nat_succ, Zpos_P_of_succ_nat,
      Nat2Z.inj_succ.
Qed.

Lemma fscore_quotient (p r : Q) :
  fscore p r == if Qeq_dec (p + r) 0 then 0 else 2 * p * r / (p + r).
Proof.
  unfold fscore. destruct (Qeq_bool (p + r) 0) eqn:Hz.
  - apply Qeq_bool_iff in Hz. by destruct (Qeq_dec (p + r) 0).
  - apply Qeq_bool_neq in Hz. by destruct (Qeq_dec (p + r) 0).
Qed.

(** C2. For the unigram and the bigram variant, [overlapCount] is the sum
    over the distinct n-grams of the smaller of the two occurrence counts;
    precision is that count over the number of candidate n-grams, recall
    the count over the number of reference n-grams, each 0 when the
    denominator is 0; F is [2·P·R/(P+R)], and 0 when [P+R = 0].  The score
    is a total function: every input has these values. *)
Theorem ngram_scores_follow_overlap_count v (n : nat) reference candidate :
  (v = unigram ∧ n = 1%nat) ∨ (v = bigram ∧ n = 2%nat) →
  let rg := ngrams n reference in
  let cg := ngrams n candidate in
  let matched := sum_list_with
                   (λ g, occurrences g rg `min` occurrences g cg)
                   (remove_dups (rg ++ cg)) in
  let sc := overlap_score v reference candidate in
  overlapCount rg cg = matched ∧
  precision sc == (if decide (length cg = 0%nat) then 0
                   else inject_Z (Z.of_nat matched)
                        / inject_Z (Z.of_nat (length cg))) ∧
  recall sc == (if decide (length rg = 0%nat) then 0
                else inject_Z (Z.of_nat matched)
                     / inject_Z (Z.of_nat (length rg))) ∧
  fmeasure sc == (if Qeq_dec (precision sc + recall sc) 0 then 0
                  else 2 * precision sc * recall sc
                       / (precision sc + recall sc)).
Proof.
  intros Hv rg cg matched sc.
  assert (sc = prf (overlapCount rg cg) (length rg) (length cg)) as ->.
  { by destruct Hv as [[-> ->]|[-> ->]]. }
  pose proof (overlapCount_occurrences rg cg) as Hm. fold matched in Hm.
  rewrite Hm. split; [done|]. unfold prf. simpl.
  split; [apply ratio_quotient|]. split; [apply ratio_quotient|].
  apply fscore_quotient.
Qed.

Lemma overlapCount_same (g : list (list string)) :
  overlapCount g g = length g.
Proof.
  rewrite overlapCount_occurrences.
  rewrite (sum_list_with_ext _ (λ x, occurrences x g))
    by (intros; apply Nat.min_id).
  apply sum_occurrences_cover; [apply NoDup_remove_dups|].
  intros x Hx. apply elem_of_remove_dups, elem_of_app. by left.
Qed.

Lemma lcs_length_same (x : list string) : lcs_length x x = length x.
Proof.
  induction x as [|a x IH]; [done|]. simpl.
  rewrite decide_True by done. by rewrite IH.
Qed.

Lemma ngrams_nonempty (n : nat) (x : list string) :
  (0 < length x)%nat → (n ≤ length x)%nat → (0 < length (ngrams n x))%nat.
Proof.
  destruct x as [|a x]; simpl; [lia|]. intros _ Hn.
  rewrite decide_True by done. simpl. lia.
Qed.

Lemma prf_same (m : nat) : (0 < m)%nat → all_ones (prf m m m).
Proof.
  intros Hm. unfold all_ones, prf. simpl.
  assert (ratio m m == 1) as Hr.
  { rewrite ratio_quotient, decide_False by lia.
    apply Qmult_inv_r. intros Hz. unfold Qeq in Hz. simpl in Hz. lia. }
  split; [done|]. split; [done|].
  rewrite fscore_quotient. destruct (Qeq_dec _ _) as [Hz|_].
  - rewrite Hr in Hz. by apply Qeq_bool_iff in Hz.
  - by rewrite Hr.
Qed.

Lemma ngrams_short (n : nat) (x : list string) :
  (length x < n)%nat → ngrams n x = [].
Proof.
  destruct x as [|a x]; [done|]. simpl. intros Hn.
  by rewrite decide_False by lia.
Qed.

Lemma prf_nothing (m : nat) :
  precision (prf m 0 0) == 0 ∧ recall (prf m 0 0) == 0 ∧
  fmeasure (prf m 0 0) == 0.
Proof. done. Qed.

(** C7 (as the model has it). Scoring a token sequence against itself
    gives precision, recall and F equal to 1 in every variant for which
    the sequence has something to count: at least one token, and at least
    two for the bigram variant.  When the sequence has nothing to count for
    the variant, the three scores are 0. *)
Theorem identical_texts_score_one v (x : list string) :
  ((min_tokens v ≤ length x)%nat → all_ones (overlap_score v x x)) ∧
  ((length x < min_tokens v)%nat →
     precision (overlap_score v x x) == 0 ∧
     recall (overlap_score v x x) == 0 ∧
     fmeasure (overlap_score v x x) == 0).
Proof.
  split.
  - intros Hlen. destruct v; simpl in *.
    + unfold ngram_score. rewrite overlapCount_same.
      apply prf_same, ngrams_nonempty; lia.
    + unfold ngram_score. rewrite overlapCount_same.
      apply prf_same, ngrams_nonempty; lia.
    + unfold lcs_score. rewrite lcs_length_same. apply prf_same. lia.
  - intros Hlen. destruct v; simpl in *.
    + unfold ngram_score. rewrite ngrams_short by done.
      apply (prf_nothing (overlapCount [] [])).
    + unfold ngram_score. rewrite ngrams_short by done.
      apply (prf_nothing (overlapCount [] [])).
    + unfold lcs_score. destruct x; [|simpl in Hlen; lia].
      apply (prf_nothing 0).
Qed.
End overlap_claims.

(** * Further properties of [extractive_summary] *)

Lemma sublist_filter_impl {A} (P Q : A → Prop) `{∀ x, Decision (P x)}
    `{∀ x, Decision (Q x)} (l : list A) :
  (∀ x, x ∈ l → P x → Q x) → filter P l `sublist_of` filter Q l.
Proof.
  induction l as [|x l IH]; intros HPQ; [done|].
  rewrite !filter_cons.
  assert (filter P l `sublist_of` filter Q l) as Hl.
  { apply IH. intros; apply HPQ; by try right. }
  destruct (decide (P x)) as [HP|HP].
  - rewrite decide_True by (apply HPQ; [left|done]). by apply sublist_skip.
  - destruct (decide (Q x)); [by apply sublist_cons|done].
Qed.

Lemma sum_list_with_ge_length {A} (f : A → nat) (l : list A) :
  (∀ x, x ∈ l → 1 ≤ f x) → length l ≤ sum_list_with f l.
Proof.
  induction l as [|x l IH]; intros Hf; simpl; [lia|].
  assert (1 ≤ f x) by (apply Hf; left).
  assert (length l ≤ sum_list_with f l) by (apply IH; intros; apply Hf; by right).
  lia.
Qed.

Lemma sum_list_with_concat {A B} (f : B → nat) (g : A → list B) (l : list A) :
  sum_list_with f (concat (g <$> l))
  = sum_list_with (λ x, sum_list_with f (g x)) l.
Proof.
  induction l as [|x l IH]; [done|]. csimpl.
  by rewrite sum_list_with_app, IH.
Qed.

(** Summing [f] over a list is summing, over a duplicate-free cover, [f]
    weighted by the number of occurrences. *)
Lemma sum_list_with_by_occurrences `{Countable K} (f : K → nat)
    (l d : list K) :
  NoDup d → (∀ x, x ∈ l → x ∈ d) →
  sum_list_with f l = sum_list_with (λ x, occurrences x l * f x) d.
Proof.
  intros Hd. induction l as [|y l IH]; intros Hcov.
  - clear. induction d as [|? d IHd]; [done|].
    cbn [sum_list_with]. by rewrite <-IHd, occurrences_nil.
  - assert (y ∈ d) as Hy by (apply Hcov; left).
    cbn [sum_list_with]. rewrite IH by (intros; apply Hcov; by right).
    clear IH Hcov.
    induction Hd as [|z d Hz Hd IHd]; [by apply elem_of_nil in Hy|].
    cbn [sum_list_with]. rewrite occurrences_cons.
    apply elem_of_cons in Hy as [->|Hy].
    + rewrite decide_True by done.
      assert (sum_list_with (λ x, occurrences x (z :: l) * f x) d
              = sum_list_with (λ x, occurrences x l * f x) d) as ->; [|lia].
      apply sum_list_with_ext. intros w Hw.
      rewrite occurrences_cons, decide_False; [done|].
      by intros ->.
    + rewrite decide_False by (by intros ->). rewrite <-IHd by done. lia.
Qed.

Section extractive_further.
Variable lower : string → string.

(** The second sort only permutes the slice it is given, on any input. *)
Lemma select_top_permutes doc k top :
  slice_to (ranked lower doc) k = Ok top →
  ∃ sel, select_top lower doc k = Ok sel ∧ sel ≡ₚ top.
Proof.
  intros Hslice. destruct (slice_to_take _ _ _ Hslice) as [m ->].
  unfold select_top, sorted_key. rewrite Hslice. simpl.
  destruct (keys_of_take_total lower doc m) as [keyed Hkeyed].
  rewrite Hkeyed. simpl. eexists. split; [done|].
  apply keys_of_Ok in Hkeyed as [<- _].
  by rewrite (sorted_Permutation key_ltb keyed).
Qed.

Lemma select_top_of_take doc k m :
  wf_doc doc = true →
  slice_to (ranked lower doc) k = Ok (take m (ranked lower doc)) →
  select_top lower doc k
  = Ok (filter (λ x, x ∈ take m (ranked lower doc))
               (sent_scores_of lower doc)).
Proof.
  intros Hdoc Hslice. unfold select_top. rewrite Hslice. simpl.
  by apply reorder_take.
Qed.

Lemma slice_to_nonneg {A} (l : list A) (k : Z) :
  (0 ≤ k)%Z → slice_to l (PyInt k) = Ok (take (Z.to_nat k) l).
Proof.
  intros Hk. rewrite slice_to_int. f_equal.
  destruct (Z.ltb_spec k 0); [lia|].
  destruct (Z.le_ge_cases k (Z.of_nat (length l))).
  - by rewrite Z.min_l.
  - rewrite Z.min_r, Nat2Z.id by done. rewrite !take_ge; [done|lia|lia].
Qed.

Lemma sentence_score_zero (table : gmap string nat) s :
  Forall (λ t, is_stop t = true ∨ is_punct t = true) (span_tokens s) →
  score lower table s = 0.
Proof.
  intros Hs. unfold score, words_of.
  induction Hs as [|t ts Ht _ IH]; [done|].
  rewrite filter_cons, decide_False; [done|].
  rewrite informative_iff. intros [??]. destruct Ht; congruence.
Qed.

(** The call raises only for a bound without an integer value, and then it
    raises [TypeError]: [sentences.index] always finds the sentence it is
    asked for, so no [ValueError] escapes. *)
Theorem raises_only_type_error doc k e :
  extractive_summary lower doc k = Raise e ↔ k = PyNonIndex ∧ e = TypeError.
Proof.
  split.
  - destruct k as [z| |]; [| |by intros [= <-]].
    + intros He. destruct (summary_of_take lower doc (PyInt z) _
                             (slice_to_int _ z)) as [? Hok].
      congruence.
    + intros He.
      destruct (summary_of_take lower doc PyNone
                  (length (ranked lower doc))) as [? Hok];
        [simpl; by rewrite take_ge|congruence].
  - by intros [-> ->].
Qed.

(** With a bound [k ≥ 0] the selection has exactly [min k s] sentences,
    [s] being the number of sentences of the document. *)
Theorem selection_has_min_k_sentences doc (k : Z) :
  (0 ≤ k)%Z →
  ∃ sel, select_top lower doc (PyInt k) = Ok sel ∧
         length sel = Z.to_nat k `min` length doc.
Proof.
  intros Hk.
  destruct (select_top_permutes doc (PyInt k) _ (slice_to_nonneg _ k Hk))
    as (sel & Hsel & Hperm).
  exists sel. split; [done|].
  by rewrite Hperm, length_take, ranked_length.
Qed.

(** With [k = 0] the summary is the empty string, and so it is for a
    document without sentences under every integer bound and under [None]. *)
Theorem empty_summary doc (z : Z) :
  extractive_summary lower doc (PyInt 0) = Ok EmptyString ∧
  extractive_summary lower [] (PyInt z) = Ok EmptyString ∧
  extractive_summary lower [] PyNone = Ok EmptyString.
Proof.
  split; [|split; [|done]].
  - unfold extractive_summary, select_top.
    by rewrite (slice_to_nonneg _ 0).
  - unfold extractive_summary, select_top. rewrite slice_to_int.
    change (ranked lower []) with (@nil (nat * Span)). by rewrite take_nil.
Qed.

(** The summary is extractive: the selection is a sublist of the scored
    sentences of the document, so the summary joins the texts of sentences
    of the document, each at most once, in document order. *)
Theorem summary_joins_sentences_in_order doc k summary :
  wf_doc doc = true →
  extractive_summary lower doc k = Ok summary →
  ∃ sel, select_top lower doc k = Ok sel ∧
         sel `sublist_of` sent_scores_of lower doc ∧
         (snd <$> sel) `sublist_of` doc ∧
         summary = join " " (span_text <$> (snd <$> sel)).
Proof.
  intros Hdoc Hsum. unfold extractive_summary in Hsum.
  destruct (select_top lower doc k) as [e|sel] eqn:Hsel; [done|].
  simpl in Hsum. injection Hsum as <-. exists sel. split; [done|].
  assert (sel `sublist_of` sent_scores_of lower doc) as Hsub.
  { unfold select_top in Hsel.
    destruct (slice_to (ranked lower doc) k) as [e|top] eqn:Hslice; [done|].
    destruct (slice_to_take _ _ _ Hslice) as [m ->].
    simpl in Hsel. rewrite (reorder_take lower doc m Hdoc) in Hsel.
    injection Hsel as <-. apply sublist_filter. }
  split; [done|]. split.
  - rewrite <-(sent_scores_snd lower doc) at 1. by apply fmap_sublist.
  - by rewrite <-list_fmap_compose.
Qed.

(** With [None] as bound the summary joins every sentence of the document in
    document order. *)
Theorem none_bound_keeps_every_sentence doc :
  wf_doc doc = true →
  extractive_summary lower doc PyNone = Ok (join " " (span_text <$> doc)).
Proof.
  intros Hdoc. unfold extractive_summary.
  rewrite (select_top_of_take doc PyNone (length (ranked lower doc)) Hdoc)
    by (simpl; by rewrite take_ge).
  simpl. rewrite take_ge by done.
  rewrite filter_all by (intros x ?; by apply ranked_elem).
  do 2 f_equal. rewrite <-(sent_scores_snd lower doc) at 2.
  by rewrite <-list_fmap_compose.
Qed.

(** A larger bound only adds sentences: for [0 ≤ k ≤ k'] the selection
    under [k] is a sublist of the selection under [k']. *)
Theorem selections_are_nested doc (k k' : Z) :
  wf_doc doc = true → (0 ≤ k ≤ k')%Z →
  ∃ sel sel', select_top lower doc (PyInt k) = Ok sel ∧
              select_top lower doc (PyInt k') = Ok sel' ∧
              sel `sublist_of` sel'.
Proof.
  intros Hdoc [Hk Hkk'].
  rewrite (select_top_of_take doc _ (Z.to_nat k) Hdoc)
    by (by apply slice_to_nonneg).
  rewrite (select_top_of_take doc _ (Z.to_nat k') Hdoc)
    by (apply slice_to_nonneg; lia).
  do 2 eexists. split; [done|]. split; [done|].
  apply sublist_filter_impl. intros x _.
  rewrite !elem_of_take. intros (i & Hi & Hlt). exists i. split; [done|lia].
Qed.

(** No sentence that is left out scores higher than a sentence that is
    selected. *)
Theorem selection_keeps_highest_scores doc (k : Z) sel x y :
  wf_doc doc = true →
  select_top lower doc (PyInt k) = Ok sel →
  x ∈ sel → y ∈ sent_scores_of lower doc → y ∉ sel →
  y.1 ≤ x.1.
Proof.
  intros Hdoc Hsel Hx Hy Hny.
  rewrite (select_top_of_take doc _ _ Hdoc (slice_to_int _ k)) in Hsel.
  injection Hsel as <-. set (m := Z.to_nat _) in *.
  apply list_elem_of_filter in Hx as [Hx _].
  assert (y ∈ drop m (ranked lower doc)) as Hyd.
  { assert (y ∈ ranked lower doc) as Hyr by (by apply ranked_elem).
    rewrite <-(take_drop m (ranked lower doc)) in Hyr.
    apply elem_of_app in Hyr as [Hyt|?]; [|done].
    destruct Hny. by apply list_elem_of_filter. }
  assert (tuple_ltb x y = false) as Hxy.
  { apply (StronglySorted_app_1_elem_of (λ a b, tuple_ltb a b = false)
             (take m (ranked lower doc)) (drop m (ranked lower doc)));
      [|done..].
    rewrite take_drop. apply ranked_strongly_sorted. }
  apply tuple_ltb_false_iff in Hxy. lia.
Qed.

(** With [k = 1] on a document with a sentence, the summary is the text of
    one sentence: it has the highest score, and of the sentences with that
    score it is the one that starts last. *)
Theorem top_one_is_last_of_the_best doc :
  wf_doc doc = true → doc ≠ [] →
  ∃ best, extractive_summary lower doc (PyInt 1) = Ok (span_text best.2) ∧
          best ∈ sent_scores_of lower doc ∧
          ∀ x, x ∈ sent_scores_of lower doc →
               x.1 ≤ best.1 ∧
               (x.1 = best.1 → start_char x.2 ≤ start_char best.2).
Proof.
  intros Hdoc Hne.
  destruct (ranked lower doc) as [|best rest] eqn:Hranked.
  { pose proof (ranked_length lower doc) as Hlen. rewrite Hranked in Hlen.
    destruct doc; [done|simpl in Hlen; lia]. }
  assert (best ∈ sent_scores_of lower doc) as Hbest.
  { apply ranked_elem. rewrite Hranked. left. }
  exists best. split; [|split; [done|]].
  - assert (select_top lower doc (PyInt 1) = Ok [best]) as Hsel;
      [|unfold extractive_summary; by rewrite Hsel].
    rewrite (select_top_of_take doc _ 1 Hdoc)
      by (by apply (slice_to_nonneg _ 1)).
    rewrite Hranked. cbn [take]. f_equal.
    apply (StronglySorted_unique_strong
             (λ x y : nat * Span, start_char x.2 ≤ start_char y.2)).
    + intros x y [_ Hx]%list_elem_of_filter Hy%list_elem_of_singleton ??.
      subst y. eapply sent_scores_tie; eauto using wf_doc_sorted with lia.
    + by apply StronglySorted_filter, sent_scores_sorted, wf_doc_sorted.
    + repeat constructor.
    + apply NoDup_Permutation.
      * by apply NoDup_filter, sent_scores_NoDup, wf_doc_sorted.
      * apply NoDup_singleton.
      * intros x. rewrite list_elem_of_filter, !list_elem_of_singleton.
        split; [by intros [-> _]|by intros ->].
  - intros x Hx%ranked_elem. rewrite Hranked in Hx.
    apply elem_of_cons in Hx as [->|Hx]; [lia|].
    pose proof (ranked_strongly_sorted lower doc) as Hs.
    rewrite Hranked in Hs. apply StronglySorted_inv in Hs as [_ Hs].
    rewrite Forall_forall in Hs. specialize (Hs x Hx).
    apply tuple_ltb_false_iff in Hs. lia.
Qed.

(** Every informative token of a sentence of the document is counted in the
    table, so a sentence scores at least the number of its informative
    tokens, and it scores 0 exactly when it has none. *)
Theorem score_counts_every_informative_token doc s :
  s ∈ doc →
  length (filter (λ t, informative t) (span_tokens s))
    ≤ score lower (word_freq_of lower doc) s ∧
  (score lower (word_freq_of lower doc) s = 0 ↔
   Forall (λ t, is_stop t = true ∨ is_punct t = true) (span_tokens s)).
Proof.
  intros Hs.
  assert (length (words_of lower (span_tokens s))
          ≤ score lower (word_freq_of lower doc) s) as Hle.
  { unfold score. apply sum_list_with_ge_length. intros w Hw.
    unfold word_freq_of. rewrite Counter_get0.
    apply (occurrences_pos w). unfold doc_tokens.
    apply list_elem_of_lookup_1 in Hs as [i Hi].
    rewrite <-(take_drop_middle doc i s Hi), fmap_app, concat_app.
    rewrite words_of_app. apply elem_of_app. right. csimpl.
    rewrite words_of_app. apply elem_of_app. by left. }
  unfold words_of in Hle at 1. rewrite length_fmap in Hle.
  split; [done|]. split.
  - intros H0. rewrite H0 in Hle. apply Forall_forall. intros t Ht.
    destruct (decide (informative t)) as [Hinf|Hinf].
    + assert (t ∈ filter (λ t, informative t) (span_tokens s)) as Hin
        by (by apply list_elem_of_filter).
      destruct (filter _ (span_tokens s)); [by apply elem_of_nil in Hin|].
      simpl in Hle. lia.
    + rewrite informative_iff in Hinf.
      destruct (is_stop t), (is_punct t); naive_solver.
  - apply sentence_score_zero.
Qed.

(** The counts of the table add up to the number of tokens of the document
    that are not stopwords and are not punctuation. *)
Theorem word_freq_total doc :
  sum_list_with (get0 (word_freq_of lower doc))
                (elements (dom (word_freq_of lower doc)))
  = length (filter (λ t, is_stop t = false ∧ is_punct t = false)
                   (doc_tokens doc)).
Proof.
  rewrite <-(list_filter_iff _ _ _ informative_iff).
  unfold word_freq_of.
  rewrite (sum_list_with_ext _
             (λ w, occurrences w (words_of lower (doc_tokens doc))))
    by (intros; apply Counter_get0).
  rewrite sum_occurrences_cover.
  - unfold words_of. by rewrite length_fmap.
  - apply NoDup_elements.
  - intros w Hw. rewrite elem_of_elements, Counter_dom.
    by apply elem_of_list_to_set.
Qed.

(** The scores of all the sentences add up to the sum of the squares of the
    counts of the table: a word that occurs [n] times adds [n] to a score at
    each of its [n] occurrences. *)
Theorem scores_total_is_sum_of_squares doc :
  sum_list_with fst (sent_scores_of lower doc)
  = sum_list_with (λ w, get0 (word_freq_of lower doc) w
                        * get0 (word_freq_of lower doc) w)
                  (elements (dom (word_freq_of lower doc))).
Proof.
  set (table := word_freq_of lower doc).
  set (ws := words_of lower (doc_tokens doc)).
  assert (sum_list_with fst (sent_scores_of lower doc)
          = sum_list_with (get0 table) ws) as ->.
  { unfold sent_scores_of. fold table. rewrite score_loop_fmap.
    unfold ws, doc_tokens. clearbody table.
    induction doc as [|s doc IH]; [done|]. csimpl.
    rewrite words_of_app, sum_list_with_app, <-IH. done. }
  rewrite (sum_list_with_by_occurrences _ ws (elements (dom table))).
  - apply sum_list_with_ext. intros w _. unfold table, word_freq_of.
    by rewrite Counter_get0.
  - apply NoDup_elements.
  - intros w Hw. unfold table, word_freq_of.
    rewrite elem_of_elements, Counter_dom. by apply elem_of_list_to_set.
Qed.
End extractive_further.

(** * Further properties of [preprocess_df] *)

(** [str.strip] on the ASCII range removes nothing more from a stripped
    string. *)
Lemma rstrip_idem s : rstrip (rstrip s) = rstrip s.
Proof.
  induction s as [|c s IH]; [done|]. simpl.
  destruct (rstrip s) as [|c' r] eqn:Hr.
  - destruct (is_space c) eqn:Hc; [done|]. simpl. by rewrite Hc.
  - simpl in *. by rewrite IH.
Qed.

Lemma lstrip_rstrip_lstrip s : lstrip (rstrip (lstrip s)) = rstrip (lstrip s).
Proof.
  induction s as [|c s IH]; [done|]. simpl.
  destruct (is_space c) eqn:Hc; [done|]. simpl.
  destruct (rstrip s); rewrite ?Hc; simpl; by rewrite ?Hc.
Qed.

Lemma ascii_strip_idem s : ascii_strip (ascii_strip s) = ascii_strip s.
Proof.
  unfold ascii_strip. by rewrite lstrip_rstrip_lstrip, rstrip_idem.
Qed.

Lemma snd_range_index (rows : list Row) : snd <$> range_index rows = rows.
Proof.
  unfold range_index. rewrite fmap_imap.
  rewrite (imap_ext _ (λ _ r, r)) by done.
  induction rows as [|r l IH]; [done|]. simpl. f_equal.
  by rewrite <-IH at 2.
Qed.

Lemma fst_range_index (rows : list Row) :
  fst <$> range_index rows = seq 0 (length rows).
Proof.
  unfold range_index. rewrite fmap_imap.
  rewrite (imap_ext _ (λ i _, i)) by done.
  by rewrite imap_seq_0, list_fmap_id.
Qed.

Section preprocess_further.
Variable strip : string → string.

Lemma cleaned_unfold df :
  cleaned strip df
  = drop_duplicates ((λ x, (x.1, strip_row strip x.2))
                       <$> filter (λ x, usableb strip x.2) df).
Proof. unfold cleaned. by rewrite before_duplicates. Qed.

Lemma preprocess_df_rows df :
  snd <$> preprocess_df strip df = snd <$> cleaned strip df.
Proof. unfold preprocess_df, reset_index. apply snd_range_index. Qed.

(** The pairs that [drop_duplicates_from] keeps are those of the frame that
    were not seen before, each once. *)
Lemma drop_duplicates_from_pairs seen (df : DataFrame) :
  NoDup ((λ x, subset_key x.2) <$> drop_duplicates_from seen df) ∧
  ∀ p, p ∈ (λ x, subset_key x.2) <$> drop_duplicates_from seen df ↔
       p ∈ (λ x, subset_key x.2) <$> df ∧ p ∉ seen.
Proof.
  revert seen. induction df as [|x df IH]; intros seen; simpl.
  { split; [constructor|]. intros p. rewrite elem_of_nil. tauto. }
  destruct (decide (subset_key x.2 ∈ seen)) as [Hseen|Hseen].
  - destruct (IH seen) as [Hnd Hel]. split; [done|].
    intros p. rewrite Hel. csimpl. rewrite elem_of_cons.
    split; [tauto|]. intros [[->|?] ?]; tauto.
  - destruct (IH ({[subset_key x.2]} ∪ seen)) as [Hnd Hel]. split.
    + csimpl. constructor; [|done]. rewrite Hel.
      rewrite elem_of_union, elem_of_singleton. tauto.
    + intros p. csimpl. rewrite !elem_of_cons, Hel.
      rewrite elem_of_union, elem_of_singleton.
      destruct (decide (p = subset_key x.2)) as [->|]; tauto.
Qed.

Lemma drop_duplicates_from_id seen (df : DataFrame) :
  NoDup ((λ x, subset_key x.2) <$> df) →
  (∀ x, x ∈ df → subset_key x.2 ∉ seen) →
  drop_duplicates_from seen df = df.
Proof.
  revert seen. induction df as [|x df IH]; intros seen Hnd Hseen; [done|].
  csimpl in Hnd. apply NoDup_cons in Hnd as [Hx Hnd]. simpl.
  rewrite decide_False by (apply Hseen; left). f_equal.
  apply IH; [done|]. intros y Hy.
  rewrite elem_of_union, elem_of_singleton. intros [Heq|Hin].
  - apply Hx. rewrite <-Heq. apply list_elem_of_fmap. eauto.
  - by apply (Hseen y); [right|].
Qed.

Lemma drop_duplicates_from_rows seen (df1 df2 : DataFrame) :
  snd <$> df1 = snd <$> df2 →
  snd <$> drop_duplicates_from seen df1
  = snd <$> drop_duplicates_from seen df2.
Proof.
  revert seen df2. induction df1 as [|x df1 IH]; intros seen [|y df2] Heq;
    simplify_eq/=; [done|].
  destruct x as [i r], y as [j r']. simpl in *. subst r'.
  destruct (decide _); csimpl; [by apply IH|].
  f_equal. by apply IH.
Qed.

Lemma usable_rows_rows (df1 df2 : DataFrame) :
  snd <$> df1 = snd <$> df2 →
  snd <$> ((λ x, (x.1, strip_row strip x.2))
             <$> filter (λ x, usableb strip x.2) df1)
  = snd <$> ((λ x, (x.1, strip_row strip x.2))
               <$> filter (λ x, usableb strip x.2) df2).
Proof.
  revert df2. induction df1 as [|x df1 IH]; intros [|y df2] Heq;
    simplify_eq/=; [done|].
  destruct x as [i r], y as [j r']. simpl in *. subst r'.
  rewrite !filter_cons. simpl.
  destruct (decide (usableb strip r)); csimpl; [f_equal|]; by apply IH.
Qed.

(** The result does not depend on the index labels the frame comes with:
    two frames with the same rows give the same result. *)
Theorem preprocess_df_ignores_labels (df1 df2 : DataFrame) :
  snd <$> df1 = snd <$> df2 →
  preprocess_df strip df1 = preprocess_df strip df2.
Proof.
  intros Heq. unfold preprocess_df, reset_index. f_equal.
  rewrite !cleaned_unfold. unfold drop_duplicates.
  by apply drop_duplicates_from_rows, usable_rows_rows.
Qed.

(** The result is labelled 0, 1, 2, ... in row order. *)
Theorem preprocess_df_resets_index (df : DataFrame) :
  fst <$> preprocess_df strip df
  = seq 0 (length (preprocess_df strip df)).
Proof.
  unfold preprocess_df, reset_index.
  rewrite fst_range_index. f_equal.
  rewrite <-(length_fmap fst), fst_range_index. by rewrite length_seq.
Qed.

Lemma result_pairs_NoDup (df : DataFrame) :
  NoDup ((λ x, (article x.2, highlights x.2)) <$> preprocess_df strip df).
Proof.
  assert (∀ l : DataFrame,
            (λ x, (article x.2, highlights x.2)) <$> l
            = subset_key <$> (snd <$> l)) as Hkeys.
  { intros l. by rewrite <-list_fmap_compose. }
  rewrite Hkeys, preprocess_df_rows, <-Hkeys, cleaned_unfold.
  apply drop_duplicates_from_pairs.
Qed.

(** No two rows of the result have the same (article, highlights) pair. *)
Theorem preprocess_df_pairs_are_distinct (df : DataFrame) :
  NoDup ((λ x, (article x.2, highlights x.2)) <$> preprocess_df strip df).
Proof. apply result_pairs_NoDup. Qed.

Lemma result_row_origin (df : DataFrame) x :
  x ∈ preprocess_df strip df →
  ∃ y a h, y ∈ df ∧ x.2 = strip_row strip y.2 ∧
           article y.2 = Some a ∧ highlights y.2 = Some h ∧
           article x.2 = Some (strip a) ∧ highlights x.2 = Some (strip h) ∧
           strip a ≠ EmptyString ∧ strip h ≠ EmptyString.
Proof.
  intros Hx.
  assert (x.2 ∈ snd <$> cleaned strip df) as Hrow.
  { rewrite <-preprocess_df_rows. apply list_elem_of_fmap. eauto. }
  apply list_elem_of_fmap in Hrow as (z & Hz & Hin).
  rewrite cleaned_unfold in Hin.
  eapply elem_of_sublist in Hin; [|apply drop_duplicates_from_sublist].
  apply list_elem_of_fmap in Hin as (y & -> & Hy).
  apply list_elem_of_filter in Hy as [Hu Hy].
  apply Is_true_true, usableb_iff in Hu as [(a & Ha & Hna) (h & Hh & Hnh)].
  exists y, a, h. rewrite Hz. simpl. rewrite Ha, Hh. done.
Qed.

(** Every row of the result is the stripped form of a row of the input
    whose two text cells hold strings that strip to something; its own text
    cells are therefore strings, and none is empty. *)
Theorem preprocess_df_rows_are_stripped_and_filled (df : DataFrame) x :
  x ∈ preprocess_df strip df →
  ∃ y a h, y ∈ df ∧ x.2 = strip_row strip y.2 ∧
           article y.2 = Some a ∧ highlights y.2 = Some h ∧
           article x.2 = Some (strip a) ∧ highlights x.2 = Some (strip h) ∧
           strip a ≠ EmptyString ∧ strip h ≠ EmptyString.
Proof. apply result_row_origin. Qed.

(** Nothing usable is lost: the pairs of the result are exactly the stripped
    pairs of the input rows whose two text cells hold strings that strip to
    something. *)
Theorem preprocess_df_keeps_every_usable_pair (df : DataFrame) p :
  p ∈ (λ x, (article x.2, highlights x.2)) <$> preprocess_df strip df ↔
  ∃ y, y ∈ df ∧ usable strip y.2 ∧ stripped_pair strip y.2 = p.
Proof.
  assert (∀ l : DataFrame,
            (λ x, (article x.2, highlights x.2)) <$> l
            = subset_key <$> (snd <$> l)) as Hkeys.
  { intros l. by rewrite <-list_fmap_compose. }
  rewrite Hkeys, preprocess_df_rows, <-Hkeys, cleaned_unfold.
  unfold drop_duplicates.
  destruct (drop_duplicates_from_pairs ∅
              ((λ x, (x.1, strip_row strip x.2))
                 <$> filter (λ x, usableb strip x.2) df)) as [_ Hel].
  change (λ x : nat * Row, (article x.2, highlights x.2))
    with (λ x : nat * Row, subset_key x.2).
  rewrite Hel, <-list_fmap_compose, list_elem_of_fmap. split.
  - intros [(y & -> & [Hu Hy]%list_elem_of_filter) _].
    exists y. split; [done|]. split; [|done].
    by apply usableb_iff, Is_true_true.
  - intros (y & Hy & Hu & <-). split; [|apply not_elem_of_empty].
    exists y. split; [done|]. apply list_elem_of_filter. split; [|done].
    by apply Is_true_true, usableb_iff.
Qed.

Lemma clean_frame_rows (df : DataFrame) :
  (∀ x, x ∈ df → ∃ a h, article x.2 = Some a ∧ highlights x.2 = Some h ∧
                         strip a = a ∧ strip h = h ∧
                         a ≠ EmptyString ∧ h ≠ EmptyString) →
  NoDup ((λ x, (article x.2, highlights x.2)) <$> df) →
  snd <$> preprocess_df strip df = snd <$> df.
Proof.
  intros Hclean Hnd. rewrite preprocess_df_rows, cleaned_unfold.
  rewrite filter_all.
  - assert ((λ x, (x.1, strip_row strip x.2)) <$> df = df) as ->.
    { rewrite <-(list_fmap_id df) at 2. apply list_fmap_ext.
      intros _ [i r] Hx%list_elem_of_lookup_2.
      destruct (Hclean _ Hx) as (a & h & Ha & Hh & Hsa & Hsh & _).
      simpl in *. f_equal. destruct r as [rid ra rh]. simpl in *. subst.
      unfold strip_row, strip_highlights, strip_article. simpl.
      by rewrite Hsa, Hsh. }
    unfold drop_duplicates. rewrite drop_duplicates_from_id; [done|done|].
    intros; apply not_elem_of_empty.
  - intros x Hx. destruct (Hclean _ Hx) as (a & h & Ha & Hh & Hsa & Hsh & ? & ?).
    apply Is_true_true, usableb_iff. split; eexists; split; eauto; congruence.
Qed.

(** A frame that is already clean comes back with its rows unchanged: when
    every text cell is a string that is not empty and that [strip] leaves
    alone, and no two rows share their pair. *)
Theorem preprocess_df_fixes_clean_frames (df : DataFrame) :
  (∀ x, x ∈ df → ∃ a h, article x.2 = Some a ∧ highlights x.2 = Some h ∧
                         strip a = a ∧ strip h = h ∧
                         a ≠ EmptyString ∧ h ≠ EmptyString) →
  NoDup ((λ x, (article x.2, highlights x.2)) <$> df) →
  snd <$> preprocess_df strip df = snd <$> df.
Proof. apply clean_frame_rows. Qed.

(** Cleaning twice is cleaning once, for a [strip] that leaves a stripped
    string alone. *)
Theorem preprocess_df_idempotent (df : DataFrame) :
  (∀ s, strip (strip s) = strip s) →
  preprocess_df strip (preprocess_df strip df) = preprocess_df strip df.
Proof.
  intros Hidem.
  assert (snd <$> preprocess_df strip (preprocess_df strip df)
          = snd <$> preprocess_df strip df) as Hrows.
  { apply clean_frame_rows.
    - intros x Hx.
      destruct (result_row_origin df x Hx)
        as (y & a & h & _ & _ & _ & _ & Ha & Hh & Hna & Hnh).
      exists (strip a), (strip h). rewrite !Hidem. done.
    - apply result_pairs_NoDup. }
  unfold preprocess_df at 1. unfold reset_index.
  rewrite <-preprocess_df_rows, Hrows.
  unfold preprocess_df, reset_index. by rewrite snd_range_index.
Qed.
End preprocess_further.

(** * The claims at the sample inputs *)

(** The sample document: the scores, the ranking and three summaries. *)
Example cat_doc_scores :
  sent_scores_of ascii_lower cat_doc
  = [(3, cat_sat); (4, cat_ran); (4, dogs_bark)].
Proof. vm_compute. reflexivity. Qed.

Example cat_doc_ranked :
  ranked ascii_lower cat_doc = [(4, dogs_bark); (4, cat_ran); (3, cat_sat)].
Proof. vm_compute. reflexivity. Qed.

Example cat_doc_top2 :
  extractive_summary ascii_lower cat_doc (PyInt 2)
  = Ok "The cat ran fast. Dogs bark loudly at night."%string.
Proof. vm_compute. reflexivity. Qed.

(** C1, counterexample. "The cat ran fast." and "Dogs bark loudly at
    night." both score 4; the ranking puts the later one first, and with
    [k = 1] the summary is the later one. *)
Lemma ties_go_to_the_later_sentence :
  ¬ ties_prefer_earlier ascii_lower cat_doc ∧
  extractive_summary ascii_lower cat_doc (PyInt 1)
  = Ok "Dogs bark loudly at night."%string.
Proof.
  split; [|vm_compute; reflexivity].
  intros Hties.
  assert (2 < 1) as Hlt; [|lia].
  apply (Hties 0 1 (4, dogs_bark) (4, cat_ran) 2 1);
    first [by rewrite cat_doc_ranked | reflexivity | lia].
Qed.

Lemma ranking_breaks_ties_by_later_position_witness :
  4 < 4 ∨ (4 = 4 ∧ 1 < 2).
Proof.
  apply (ranking_breaks_ties_by_later_position ascii_lower cat_doc
           0 1 (4, dogs_bark) (4, cat_ran) 2 1);
    first [reflexivity | lia | vm_compute; reflexivity].
Defined.

(** C3, counterexample. The bound [-1] is not rejected: the call returns the
    two best ranked sentences. *)
Lemma negative_bound_is_not_rejected :
  ¬ rejects_invalid_bounds ascii_lower cat_doc ∧
  extractive_summary ascii_lower cat_doc (PyInt (-1))
  = Ok "The cat ran fast. Dogs bark loudly at night."%string.
Proof.
  split; [|vm_compute; reflexivity].
  intros Hrej. destruct (Hrej (PyInt (-1))) as [e He]; [simpl; lia|].
  vm_compute in He. discriminate.
Qed.

Lemma bound_without_index_raises_negative_returns_witness :
  ∃ summary, extractive_summary ascii_lower cat_doc (PyInt (-1)) = Ok summary.
Proof.
  apply (bound_without_index_raises_negative_returns ascii_lower cat_doc).
  lia.
Defined.

Lemma select_all_in_document_order_witness :
  extractive_summary ascii_lower cat_doc (PyInt 5)
  = Ok (join " " (span_text <$> cat_doc)).
Proof.
  apply (select_all_in_document_order ascii_lower cat_doc 5);
    [reflexivity | simpl; lia].
Defined.

Lemma sentence_score_sums_table_counts_witness :
  score ascii_lower {[ "it"%string := 7 ]} only_stopwords = 0.
Proof.
  apply (sentence_score_sums_table_counts ascii_lower _ []).
  repeat (constructor; [first [by left | by right]|]). constructor.
Defined.

Lemma summary_is_determined_witness :
  summary_run ascii_lower cat_doc (PyInt 2)
    (Ok "The cat ran fast. Dogs bark loudly at night."%string).
Proof.
  apply (summary_is_determined ascii_lower cat_doc (PyInt 2));
    [reflexivity | vm_compute; reflexivity].
Defined.

Lemma negative_bound_drops_lowest_ranked_witness :
  extractive_summary ascii_lower cat_doc (PyInt (-1))
  = Ok (join " "
          ((λ x, span_text x.2)
             <$> filter (λ x, x ∈ take 2 (ranked ascii_lower cat_doc))
                        (sent_scores_of ascii_lower cat_doc))).
Proof.
  apply (negative_bound_drops_lowest_ranked ascii_lower cat_doc 1);
    [lia | reflexivity | simpl; lia].
Defined.

(** C8 at the sample rows: row [c] repeats the stripped pair of row [a]
    and is dropped, row [e] is kept. *)
Example sample_rows_cleaned :
  snd <$> preprocess_df ascii_strip (range_index sample_rows)
  = [ {| id := "a"; article := Some "x"; highlights := Some "h" |};
      {| id := "e"; article := Some "y"; highlights := Some "h" |} ]%string.
Proof. vm_compute. reflexivity. Qed.

Lemma preprocess_df_keeps_first_usable_rows_witness :
  (4, strip_row ascii_strip
        {| id := "e"; article := Some "y"; highlights := Some "h" |}%string)
    ∈ cleaned ascii_strip (range_index sample_rows).
Proof.
  destruct (preprocess_df_keeps_first_usable_rows ascii_strip sample_rows)
    as (_ & Hkept & _).
  apply (Hkept (take 4 (range_index sample_rows))
           (4, {| id := "e"; article := Some "y"; highlights := Some "h" |}%string)
           []); [reflexivity|].
  split.
  - split; eexists; (split; [reflexivity|]); vm_compute; discriminate.
  - intros y Hy. vm_compute in Hy.
    repeat (apply elem_of_cons in Hy as [->|Hy]; [vm_compute; discriminate|]).
    by apply elem_of_nil in Hy.
Defined.

(** C2 at the sample pair "a b c d" / "a b e f": two unigrams match out of
    four on each side. *)
Example sample_unigram_score :
  let sc := overlap_score unigram ["a"; "b"; "c"; "d"]%string
                                  ["a"; "b"; "e"; "f"]%string in
  (precision sc == 1 # 2 ∧ recall sc == 1 # 2 ∧ fmeasure sc == 1 # 2)%Q.
Proof. by vm_compute. Qed.

Lemma ngram_scores_follow_overlap_count_witness :
  overlapCount (ngrams 1 ["a"; "b"; "c"; "d"]%string)
               (ngrams 1 ["a"; "b"; "e"; "f"]%string)
  = sum_list_with
      (λ g, occurrences g (ngrams 1 ["a"; "b"; "c"; "d"]%string)
            `min` occurrences g (ngrams 1 ["a"; "b"; "e"; "f"]%string))
      (remove_dups (ngrams 1 ["a"; "b"; "c"; "d"]%string
                    ++ ngrams 1 ["a"; "b"; "e"; "f"]%string)).
Proof.
  apply (ngram_scores_follow_overlap_count unigram 1
           ["a"; "b"; "c"; "d"]%string ["a"; "b"; "e"; "f"]%string).
  left. split; reflexivity.
Defined.

(** C7, counterexample. An empty text scored against itself has precision
    0, and a one-token text has no bigram: its bigram precision is 0. *)
Lemma empty_text_does_not_score_one :
  ¬ all_ones (overlap_score unigram [] []) ∧
  ¬ all_ones (overlap_score lcs [] []) ∧
  ¬ all_ones (overlap_score bigram ["a"%string] ["a"%string]).
Proof. repeat split; intros [Hp _]; vm_compute in Hp; discriminate. Qed.

Lemma identical_texts_score_one_witness :
  all_ones (overlap_score bigram ["a"; "b"]%string ["a"; "b"]%string).
Proof.
  apply (identical_texts_score_one bigram ["a"; "b"]%string). simpl. lia.
Defined.

(** * The further properties at the sample inputs *)

Lemma selection_has_min_k_sentences_witness :
  ∃ sel, select_top ascii_lower cat_doc (PyInt 3) = Ok sel ∧
         length sel = Z.to_nat 3 `min` length cat_doc.
Proof.
  apply (selection_has_min_k_sentences ascii_lower cat_doc 3). lia.
Defined.

Lemma summary_joins_sentences_in_order_witness :
  ∃ sel, select_top ascii_lower cat_doc (PyInt 2) = Ok sel ∧
         sel `sublist_of` sent_scores_of ascii_lower cat_doc ∧
         (snd <$> sel) `sublist_of` cat_doc ∧
         "The cat ran fast. Dogs bark loudly at night."%string
         = join " " (span_text <$> (snd <$> sel)).
Proof.
  apply (summary_joins_sentences_in_order ascii_lower cat_doc (PyInt 2));
    [reflexivity | vm_compute; reflexivity].
Defined.

Lemma none_bound_keeps_every_sentence_witness :
  extractive_summary ascii_lower cat_doc PyNone
  = Ok (join " " (span_text <$> cat_doc)).
Proof.
  apply (none_bound_keeps_every_sentence ascii_lower cat_doc). reflexivity.
Defined.

Lemma selections_are_nested_witness :
  ∃ sel sel', select_top ascii_lower cat_doc (PyInt 1) = Ok sel ∧
              select_top ascii_lower cat_doc (PyInt 2) = Ok sel' ∧
              sel `sublist_of` sel'.
Proof.
  apply (selections_are_nested ascii_lower cat_doc 1 2); [reflexivity | lia].
Defined.

Lemma selection_keeps_highest_scores_witness : 3 ≤ 4.
Proof.
  apply (selection_keeps_highest_scores ascii_lower cat_doc 2
           [(4, cat_ran); (4, dogs_bark)] (4, cat_ran) (3, cat_sat)).
  - reflexivity.
  - vm_compute. reflexivity.
  - left.
  - rewrite cat_doc_scores. left.
  - intros Hin.
    repeat (apply elem_of_cons in Hin as [Hin|Hin]; [discriminate|]).
    by apply elem_of_nil in Hin.
Defined.

Lemma top_one_is_last_of_the_best_witness :
  ∃ best,
    extractive_summary ascii_lower cat_doc (PyInt 1) = Ok (span_text best.2) ∧
    best ∈ sent_scores_of ascii_lower cat_doc ∧
    ∀ x, x ∈ sent_scores_of ascii_lower cat_doc →
         x.1 ≤ best.1 ∧ (x.1 = best.1 → start_char x.2 ≤ start_char best.2).
Proof.
  apply (top_one_is_last_of_the_best ascii_lower cat_doc);
    [reflexivity | discriminate].
Defined.

Lemma score_counts_every_informative_token_witness :
  3 ≤ score ascii_lower (word_freq_of ascii_lower cat_doc) cat_ran.
Proof.
  apply (score_counts_every_informative_token ascii_lower cat_doc cat_ran).
  right. left.
Defined.

Lemma preprocess_df_ignores_labels_witness :
  preprocess_df ascii_strip (imap (λ i r, (10 + i, r)) sample_rows)
  = preprocess_df ascii_strip (range_index sample_rows).
Proof.
  apply (preprocess_df_ignores_labels ascii_strip). reflexivity.
Defined.

Lemma preprocess_df_rows_are_stripped_and_filled_witness :
  ∃ y a h,
    y ∈ range_index sample_rows ∧
    {| id := "e"; article := Some "y"; highlights := Some "h" |}%string
    = strip_row ascii_strip y.2 ∧
    article y.2 = Some a ∧ highlights y.2 = Some h ∧
    Some "y"%string = Some (ascii_strip a) ∧
    Some "h"%string = Some (ascii_strip h) ∧
    ascii_strip a ≠ EmptyString ∧ ascii_strip h ≠ EmptyString.
Proof.
  apply (preprocess_df_rows_are_stripped_and_filled ascii_strip
           (range_index sample_rows)
           (1, {| id := "e"; article := Some "y"; highlights := Some "h" |}%string)).
  vm_compute. right. left.
Defined.

Lemma preprocess_df_fixes_clean_frames_witness :
  snd <$> preprocess_df ascii_strip
            (range_index
               [ {| id := "a"; article := Some "x"; highlights := Some "h" |};
                 {| id := "e"; article := Some "y"; highlights := Some "h" |} ]%string)
  = [ {| id := "a"; article := Some "x"; highlights := Some "h" |};
      {| id := "e"; article := Some "y"; highlights := Some "h" |} ]%string.
Proof.
  apply (preprocess_df_fixes_clean_frames ascii_strip
           (range_index
              [ {| id := "a"; article := Some "x"; highlights := Some "h" |};
                {| id := "e"; article := Some "y"; highlights := Some "h" |} ]%string)).
  - intros x Hx. vm_compute in Hx.
    repeat (apply elem_of_cons in Hx as [->|Hx];
            [do 2 eexists; repeat split; try reflexivity; discriminate|]).
    by apply elem_of_nil in Hx.
  - vm_compute. repeat constructor.
    + intros Hin.
      repeat (apply elem_of_cons in Hin as [Hin|Hin]; [discriminate|]).
      by apply elem_of_nil in Hin.
    + intros Hin. by apply elem_of_nil in Hin.
Defined.

Lemma preprocess_df_idempotent_witness :
  preprocess_df ascii_strip
    (preprocess_df ascii_strip (range_index sample_rows))
  = preprocess_df ascii_strip (range_index sample_rows).
Proof.
  apply (preprocess_df_idempotent ascii_strip (range_index sample_rows)).
  apply ascii_strip_idem.
Defined.
